(** * Tile catalogue server (server/server.js)

    A shallow embedding of the catalogue store and of the four request
    handlers that read or write it:

      - GET    /api/designs          [get_designs]
      - POST   /api/upload           [post_upload]
      - PUT    /api/designs/order    [put_order]
      - DELETE /api/designs/:id      [delete_design]

    together with the helpers they call ([slug], [safeExt], the multer
    [filename] callback).  The catalogue file is the only state: every
    handler is a function from the document it reads to a reply and the
    document the file holds afterwards.

    Around the handlers: what multer does before the upload handler runs
    ([ensureIdAndLabel], the [destination] callback, [multer]), the files
    that the delete handler removes ([cleanup]), given as the names it
    finds in the shared directories, and the catalogue the server starts
    with ([initial]).

    Conventions.
      - A JavaScript string is a [string]: the sequence of its UTF-8 bytes.
        The character class [A-Z0-9_] is ASCII, so a run of characters outside
        it is a run of bytes outside it, whichever the encoding.
      - Numbers are integers ([Z]); timestamps and positions are far below
        2^53, where JavaScript numbers are exact.
      - [null] and [undefined] are [None]. *)

From stdpp Require Import base list gmap strings pretty sorting.
From Stdlib Require Import ZArith Ascii.

Local Open Scope Z_scope.

(** ** Strings *)

Definition in_range (lo hi : N) (c : ascii) : bool :=
  ((lo <=? N_of_ascii c) && (N_of_ascii c <=? hi))%N.

(** The character class [[A-Z0-9_]] of the two regular expressions of [slug]. *)
Definition slug_char (c : ascii) : bool :=
  in_range 65 90 c || in_range 48 57 c || bool_decide (c = "_"%char).

Fixpoint string_forall (p : ascii → bool) (s : string) : bool :=
  match s with
  | "" => true
  | String c r => p c && string_forall p r
  end.

Fixpoint string_map (f : ascii → ascii) (s : string) : string :=
  match s with
  | "" => ""
  | String c r => String (f c) (string_map f r)
  end.

Fixpoint drop_while (p : ascii → bool) (s : string) : string :=
  match s with
  | "" => ""
  | String c r => if p c then drop_while p r else s
  end.

Fixpoint take_while (p : ascii → bool) (s : string) : string :=
  match s with
  | "" => ""
  | String c r => if p c then String c (take_while p r) else ""
  end.

(** The part of [s] that is left when a trailing run of [p]-characters is cut. *)
Fixpoint drop_while_end (p : ascii → bool) (s : string) : string :=
  match s with
  | "" => ""
  | String c r =>
      match drop_while_end p r with
      | "" => if p c then "" else String c ""
      | r' => String c r'
      end
  end.

Fixpoint is_prefix (p s : string) : bool :=
  match p, s with
  | "", _ => true
  | String a p', String b s' => bool_decide (a = b) && is_prefix p' s'
  | _, _ => false
  end.

(** [s.replace(/^p/, "")] and [s.replace(/p$/, "")] for a literal [p]. *)
Fixpoint strip_prefix (p s : string) : option string :=
  match p, s with
  | "", _ => Some s
  | String a p', String b s' =>
      if bool_decide (a = b) then strip_prefix p' s' else None
  | _, _ => None
  end.

Definition remove_prefix (p s : string) : string :=
  default s (strip_prefix p s).

Definition remove_suffix (p s : string) : string :=
  String.rev (remove_prefix (String.rev p) (String.rev s)).

(** The string methods of the host that [slug] and [safeExt] call.  They are
    Unicode-aware in JavaScript; the handlers only rely on the fact that a
    string made of capitals, digits and underscores has no white space at
    its ends and is its own upper-case form. *)
Class JsString := {
  trim : string → string;
  toUpperCase : string → string;
  toLowerCase : string → string;
  trim_slug_chars : ∀ s, string_forall slug_char s = true → trim s = s;
  toUpperCase_slug_chars :
    ∀ s, string_forall slug_char s = true → toUpperCase s = s
}.

(** An implementation of these methods that is exact on ASCII text (a
    character outside ASCII is left as it is). *)
Definition ascii_upper (c : ascii) : ascii :=
  if in_range 97 122 c then ascii_of_N (N_of_ascii c - 32) else c.

Definition ascii_lower (c : ascii) : ascii :=
  if in_range 65 90 c then ascii_of_N (N_of_ascii c + 32) else c.

Definition ascii_trim (s : string) : string :=
  drop_while_end Ascii.is_space (drop_while Ascii.is_space s).

(** [s.replace(/[^A-Z0-9_]+/g, "_")]: scanning left to right, a character of
    the class is copied; the first character of a run outside the class
    produces the underscore, the rest of the run ([in_run]) produces nothing. *)
Fixpoint replace_runs (in_run : bool) (s : string) : string :=
  match s with
  | "" => ""
  | String c r =>
      if slug_char c then String c (replace_runs false r)
      else if in_run then replace_runs true r
      else String "_" (replace_runs true r)
  end.

Definition is_underscore (c : ascii) : bool := bool_decide (c = "_"%char).

(** [s.replace(/^_+|_+$/g, "")]. *)
Definition strip_underscores (s : string) : string :=
  drop_while_end is_underscore (drop_while is_underscore s).

Section Slug.
Context `{JsString}.

(** [const slug = (s = "") =>
      s.trim().toUpperCase().replace(/[^A-Z0-9_]+/g, "_").replace(/^_+|_+$/g, "")] *)
Definition slug (s : string) : string :=
  strip_underscores (replace_runs false (toUpperCase (trim s))).

End Slug.

(** The normalization rule in the words of the specification: the string is
    cut into its maximal runs, each tagged with whether its characters are
    in the class; a run outside the class becomes one underscore. *)
Fixpoint runs (s : string) : list (bool * string) :=
  match s with
  | "" => []
  | String c r =>
      match runs r with
      | (b, w) :: rest =>
          if bool_decide (b = slug_char c) then (b, String c w) :: rest
          else (slug_char c, String c "") :: (b, w) :: rest
      | [] => [(slug_char c, String c "")]
      end
  end.

Definition concat_strings (l : list string) : string :=
  foldr String.app "" l.

Definition replace_runs_spec (s : string) : string :=
  concat_strings ((λ bw : bool * string, if bw.1 then bw.2 else "_") <$> runs s).

(** ** Paths (node:path, POSIX flavour) *)

Definition is_slash (c : ascii) : bool := bool_decide (c = "/"%char).
Definition is_dot (c : ascii) : bool := bool_decide (c = "."%char).

(** [path.basename(p)]: the last segment, trailing slashes ignored. *)
Definition basename (p : string) : string :=
  String.rev (take_while (λ c, negb (is_slash c))
                (drop_while is_slash (String.rev p))).

(** [path.extname(p)]: from the last dot of the base name to its end; empty
    when there is no dot, when the dot is the first character of the base
    name, and for the base name [..]. *)
Definition extname (p : string) : string :=
  let rbase := String.rev (basename p) in
  let rext := take_while (λ c, negb (is_dot c)) rbase in
  match drop_while (λ c, negb (is_dot c)) rbase with
  | "" => ""
  | String _ "" => ""
  | String _ pre =>
      if bool_decide (rext = "" ∧ pre = ".") then ""
      else String "." (String.rev rext)
  end.

(** [String.prototype.replace(".", "")]: the first dot only. *)
Fixpoint remove_first_dot (s : string) : string :=
  match s with
  | "" => ""
  | String c r => if is_dot c then r else String c (remove_first_dot r)
  end.

Section SafeExt.
Context `{JsString}.

(** [const safeExt = (name, allowed) => {
      const ext = String(path.extname(name)).toLowerCase().replace(".", "");
      return allowed.includes(ext) ? ext : null; }] *)
Definition safeExt (name : string) (allowed : list string) : option string :=
  let ext := remove_first_dot (toLowerCase (extname name)) in
  if bool_decide (ext ∈ allowed) then Some ext else None.

End SafeExt.

Definition images : list string := ["jpg"; "jpeg"; "png"; "webp"].

(** ** Data model *)

(** A value of [themeData]: one string (an asset path, or a scalar of the
    form) or an array of asset paths. *)
Inductive ThemeValue :=
  | One (s : string)
  | Many (l : list string).

Global Instance ThemeValue_eq_dec : EqDecision ThemeValue.
Proof. solve_decision. Defined.

(** A design record.  The fields every upsert writes are plain; the fields a
    record may lack are options.  A payload of an upsert is a record too:
    the fields it does not carry are [None]. *)
Module Design.
Record t := {
  id : string;
  theme : string;
  label : string;
  finish : string;
  faces : Z;
  updatedAt : Z;
  main : option string;
  variants : option (list string);
  video : option string;
  preview : option string;
  sizeText : option string;
  themeData : option (gmap string ThemeValue);
  position : option Z;
  createdAt : option Z
}.
End Design.

Global Instance Design_eq_dec : EqDecision Design.t.
Proof. solve_decision. Defined.

(** [d.position = p] *)
Definition set_position (d : Design.t) (p : Z) : Design.t :=
  {| Design.id := Design.id d; Design.theme := Design.theme d;
     Design.label := Design.label d; Design.finish := Design.finish d;
     Design.faces := Design.faces d; Design.updatedAt := Design.updatedAt d;
     Design.main := Design.main d; Design.variants := Design.variants d;
     Design.video := Design.video d; Design.preview := Design.preview d;
     Design.sizeText := Design.sizeText d;
     Design.themeData := Design.themeData d;
     Design.position := Some p; Design.createdAt := Design.createdAt d |}.

(** A field of [{ ...old, ...payload }]: the payload's when it has one. *)
Definition over {A} (new old : option A) : option A :=
  match new with Some _ => new | None => old end.

(** [{ ...old, ...payload }] *)
Definition spread (old payload : Design.t) : Design.t :=
  {| Design.id := Design.id payload; Design.theme := Design.theme payload;
     Design.label := Design.label payload;
     Design.finish := Design.finish payload;
     Design.faces := Design.faces payload;
     Design.updatedAt := Design.updatedAt payload;
     Design.main := over (Design.main payload) (Design.main old);
     Design.variants := over (Design.variants payload) (Design.variants old);
     Design.video := over (Design.video payload) (Design.video old);
     Design.preview := over (Design.preview payload) (Design.preview old);
     Design.sizeText := over (Design.sizeText payload) (Design.sizeText old);
     Design.themeData :=
       over (Design.themeData payload) (Design.themeData old);
     Design.position := over (Design.position payload) (Design.position old);
     Design.createdAt :=
       over (Design.createdAt payload) (Design.createdAt old) |}.

(** The catalogue document.  [designs] is [None] when the file has no array
    under that key; an entry of the array is [None] when it is [null]. *)
Module Doc.
Record t := {
  brandLogo : option string;
  sizeIcon : option string;
  designs : option (list (option Design.t))
}.
End Doc.

(** [data.designs = ds] *)
Definition set_designs (data : Doc.t) (ds : list (option Design.t)) : Doc.t :=
  {| Doc.brandLogo := Doc.brandLogo data; Doc.sizeIcon := Doc.sizeIcon data;
     Doc.designs := Some ds |}.

(** [Array.isArray(data.designs) ? data.designs : []] *)
Definition designs_of (data : Doc.t) : list (option Design.t) :=
  default [] (Doc.designs data).

(** What a handler sends: a body, or a status with an error message. *)
Inductive Reply (A : Type) :=
  | Sent (body : A)
  | Failed (status : nat) (error : string).
Arguments Sent {A} body.
Arguments Failed {A} status error.

(** The entries of an array all of which are records; [None] when one is
    [null], where reading a field of it throws a TypeError. *)
Definition records (ds : list (option Design.t)) : option (list Design.t) :=
  mapM (λ d, d) ds.

(** ** Display order *)

Definition sentinel : Z := 1000000000000.

(** [(a, b) => { const pa = (a.position ?? 1e12), pb = (b.position ?? 1e12);
       return pa !== pb ? pa - pb : (a.createdAt || 0) - (b.createdAt || 0); }] *)
Definition compare_designs (a b : Design.t) : Z :=
  let pa := default sentinel (Design.position a) in
  let pb := default sentinel (Design.position b) in
  if bool_decide (pa ≠ pb) then pa - pb
  else default 0 (Design.createdAt a) - default 0 (Design.createdAt b).

(** [Array.prototype.sort] is stable, and [compare_designs] is a consistent
    comparator: the result is the one stable arrangement, which insertion
    from the right computes. *)
Section Sort.
Context {A : Type} (cmp : A → A → Z).

Fixpoint insert_sorted (x : A) (l : list A) : list A :=
  match l with
  | [] => [x]
  | y :: l' =>
      if bool_decide (cmp x y ≤ 0) then x :: l else y :: insert_sorted x l'
  end.

Definition sort (l : list A) : list A := foldr insert_sorted [] l.

End Sort.

(** ** GET /api/designs *)

(** [data.designs.sort(...)].  With fewer than two entries the comparator is
    not called; with two or more it is called on every entry, and throws on
    a [null] one. *)
Definition sort_designs (ds : list (option Design.t))
    : option (list (option Design.t)) :=
  match ds with
  | [] | [_] => Some ds
  | _ => l ← records ds; Some (Some <$> sort compare_designs l)
  end.

(** The catalogue file is not written. *)
Definition get_designs (data : Doc.t) : Reply Doc.t * Doc.t :=
  match Doc.designs data with
  | Some ds =>
      match sort_designs ds with
      | Some ds' => (Sent (set_designs data ds'), data)
      | None => (Failed 500 "Failed to read catalogue", data)
      end
  | None => (Sent data, data)
  end.

(** ** PUT /api/designs/order *)

(** [theme && theme !== "all"] *)
Definition theme_scoped (theme : option string) : bool :=
  match theme with
  | Some t => bool_decide (t ≠ "") && bool_decide (t ≠ "all")
  | None => false
  end.

(** [new Map(designs.map(d => [d.id, d]))]: a later record replaces an
    earlier one of the same id. *)
Definition byId_of (designs : list Design.t) : gmap string Design.t :=
  foldl (λ m d, <[Design.id d := d]> m) ∅ designs.

(** [current.map(d => (set.has(d.id) ? it.next().value : d.id))], with the
    iterator [it] as the list of the ids it has not yet produced; an
    exhausted iterator yields [undefined]. *)
Fixpoint substitute (set : gset string) (it : list string)
    (current : list Design.t) : list (option string) :=
  match current with
  | [] => []
  | d :: rest =>
      if bool_decide (Design.id d ∈ set)
      then head it :: substitute set (tail it) rest
      else Some (Design.id d) :: substitute set it rest
  end.

(** [newIds.forEach((id, i) => { const d = byId.get(id); if (d) d.position = i + 1; })]
    from index [i] on.  The records are shared with [byId], which is where
    the handler reads them back: the assignment updates the map. *)
Fixpoint assign_positions (i : nat) (newIds : list (option string))
    (byId : gmap string Design.t) : gmap string Design.t :=
  match newIds with
  | [] => byId
  | oid :: rest =>
      assign_positions (S i) rest
        match oid with
        | Some id =>
            match byId !! id with
            | Some d => <[id := set_position d (Z.of_nat i + 1)]> byId
            | None => byId
            end
        | None => byId
        end
  end.

(** [newIds.map(id => byId.get(id))] *)
Definition collect (byId : gmap string Design.t)
    (newIds : list (option string)) : list (option Design.t) :=
  (λ oid : option string, oid ≫= (byId !!.)) <$> newIds.

(** The ids to store, or the status and message of the rejection. *)
Definition new_ids (theme : option string) (order : list string)
    (current : list Design.t) : Reply (list (option string)) :=
  if theme_scoped theme then
    let set : gset string := list_to_set order in
    Sent (substitute set order current)
  else
    let allIds : gset string := list_to_set (Design.id <$> current) in
    if bool_decide (length order ≠ size allIds)
       || bool_decide (Exists (λ id, id ∉ allIds) order)
    then Failed 400 "Global reorder must include all existing design IDs."
    else Sent (Some <$> order).

(** [order] is [None] when the body has no array under [order]. *)
Definition put_order (data : Doc.t) (theme : option string)
    (order : option (list string))
    : Reply (list (option Design.t)) * Doc.t :=
  match order with
  | None | Some [] =>
      (Failed 400 "Provide 'order' as a non-empty array of IDs.", data)
  | Some order =>
      match records (designs_of data) with
      | None => (Failed 500 "Failed to save order", data)
      | Some designs =>
          let byId := byId_of designs in
          let current := sort compare_designs designs in
          match new_ids theme order current with
          | Failed status error => (Failed status error, data)
          | Sent newIds =>
              let ds := collect (assign_positions 0 newIds byId) newIds in
              (Sent ds, set_designs data ds)
          end
      end
  end.

(** ** DELETE /api/designs/:id *)

Section Delete.
Context `{JsString}.

(** The reply carries [designs] and [removed].  [designs.filter] reads the
    id of every entry and throws on a [null] one. *)
Definition delete_design (data : Doc.t) (raw : string)
    : Reply (list (option Design.t) * bool) * Doc.t :=
  let id := slug raw in
  if bool_decide (id = "") then (Failed 400 "Missing id", data)
  else
    match records (designs_of data) with
    | None => (Failed 500 "Failed to delete design", data)
    | Some designs =>
        let exists_ := bool_decide (Exists (λ d, Design.id d = id) designs) in
        let ds := Some <$> filter (λ d, Design.id d ≠ id) designs in
        (Sent (ds, exists_), set_designs data ds)
    end.

End Delete.

(** ** POST /api/upload *)

(** An uploaded file: its form field, the name it had on the client, and
    the clock ([Date.now()]) when multer named it. *)
Record File := {
  fieldname : string;
  originalname : string;
  stamp : Z
}.

(** The request as the handler reads it.  [body_faces] is the value of
    [Number.parseInt(req.body.faces || "0", 10) || 0], [body_sizeText] the
    value of [req.body["data[size_text]"] ?? req.body.data?.size_text ?? null],
    and [body_data] the object [themeData] as the [data[...]] keys and
    [req.body.data] fill it, before the files are added. *)
Record Request := {
  body_id : option string;
  body_label : option string;
  body_finish : option string;
  body_theme : option string;
  body_faces : Z;
  body_sizeText : option string;
  body_data : gmap string ThemeValue;
  files : list File
}.

(** [s || d] for a string that may be missing. *)
Definition or_else (s : option string) (d : string) : string :=
  match s with
  | Some s => if bool_decide (s = "") then d else s
  | None => d
  end.

(** [(filesByField[f.fieldname] ||= []).push(f)] *)
Fixpoint push_file (f : File) (groups : list (string * list File))
    : list (string * list File) :=
  match groups with
  | [] => [(fieldname f, [f])]
  | (k, fs) :: rest =>
      if bool_decide (k = fieldname f) then (k, fs ++ [f]) :: rest
      else (k, fs) :: push_file f rest
  end.

(** The names that the object [filesByField = {}] inherits from
    [Object.prototype].  Under such a name [filesByField[name]] is a
    function (the prototype itself, for [__proto__]): [||=] assigns
    nothing, the value has no [push], and the call throws. *)
Definition inherited : list string :=
  ["constructor"; "__proto__"; "hasOwnProperty"; "isPrototypeOf";
   "propertyIsEnumerable"; "toLocaleString"; "toString"; "valueOf";
   "__defineGetter__"; "__defineSetter__"; "__lookupGetter__";
   "__lookupSetter__"].

(** [(req.files || []).forEach(f => { (filesByField[f.fieldname] ||= []).push(f); })]
    throws when a field has an inherited name. *)
Definition grouping_throws (fs : list File) : bool :=
  bool_decide (Exists (λ f, fieldname f ∈ inherited) fs).

(** The object [filesByField], as its keys in creation order, when the
    grouping does not throw. *)
Definition filesByField (fs : list File) : list (string * list File) :=
  foldl (λ groups f, push_file f groups) [] fs.

(** [filesByField[k]] *)
Fixpoint field (k : string) (groups : list (string * list File))
    : option (list File) :=
  match groups with
  | [] => None
  | (k', fs) :: rest => if bool_decide (k' = k) then Some fs else field k rest
  end.

(** The keys of an object that are array indices come first in
    [Object.entries], in ascending order; the others follow in creation
    order. *)
Fixpoint digits_value (acc : N) (s : string) : option N :=
  match s with
  | "" => Some acc
  | String c r =>
      n ← Ascii.is_nat c; digits_value (acc * 10 + N.of_nat n)%N r
  end.

Definition array_index (s : string) : option N :=
  n ← digits_value 0 s;
  if bool_decide (s ≠ "" ∧ pretty n = s ∧ (n < 4294967295)%N) then Some n
  else None.

Definition entries {V} (obj : list (string * V)) : list (string * V) :=
  let indexed :=
    omap (λ kv : string * V, n ← array_index kv.1; Some (n, kv)) obj in
  let cmp (a b : N * (string * V)) := Z.of_N a.1 - Z.of_N b.1 in
  (snd <$> sort cmp indexed)
  ++ filter (λ kv : string * V, array_index kv.1 = None) obj.

Section Upload.
Context `{JsString}.

(** The [filename] callback of the multer storage: the name that multer
    joins to the destination directory.  [f.path] is that join, and
    [path.basename(f.path)] its last segment: the name itself when it has
    no slash, which a field name can bring in. *)
Definition filename (theme id : string) (f : File) : string :=
  let ext := toLowerCase (extname (originalname f)) in
  if bool_decide (theme = "default") then
    if bool_decide (fieldname f = "main") then id +:+ "_R1" +:+ ext
    else if is_prefix "variants" (fieldname f)
      then id +:+ "_RVAR" +:+ pretty (stamp f) +:+ ext
    else if bool_decide (fieldname f = "video") then id +:+ ext
    else if bool_decide (fieldname f = "preview") then id +:+ ext
    else fieldname f +:+ ext
  else fieldname f +:+ "_" +:+ pretty (stamp f) +:+ ext.

(** The loop over the variant files, from [counter] on: each accepted file
    with the name it is moved to; a file whose extension is not allowed is
    passed over ([continue]) and leaves the counter as it is.
    [await fs.move(f.path, dest, { overwrite: true })] throws when nothing
    is at [f.path] any more: the variant files are all stored in the tiles
    directory of the id, so that is when an earlier turn of the loop has
    moved a file that multer stored under the same name ([moved] has the
    names of the files moved so far; the names they are moved to, with a
    digit after [_R], are not names that multer gives).  [None] is the
    exception. *)
Fixpoint rename_variants (id : string) (counter : nat) (moved : list string)
    (variants : list File) : option (list (File * string)) :=
  match variants with
  | [] => Some []
  | f :: rest =>
      match safeExt (originalname f) images with
      | None => rename_variants id counter moved rest
      | Some ext =>
          let source := filename "default" id f in
          if bool_decide (source ∈ moved) then None
          else
            cons (f, id +:+ "_R" +:+ pretty counter +:+ "." +:+ ext)
            <$> rename_variants id (S counter) (source :: moved) rest
      end
  end.

(** [filesByField["variants[]"] || filesByField["variants"] || []] *)
Definition variant_files (groups : list (string * list File)) : list File :=
  match field "variants[]" groups with
  | Some fs => fs
  | None => default [] (field "variants" groups)
  end.

(** [data.designs.findIndex((d) => d.id === id)]: [Some None] is -1, and
    [None] the TypeError of reaching a [null] entry. *)
Fixpoint findIndex (id : string) (ds : list (option Design.t))
    : option (option nat) :=
  match ds with
  | [] => Some None
  | None :: _ => None
  | Some d :: rest =>
      if bool_decide (Design.id d = id) then Some (Some 0%nat)
      else
        match findIndex id rest with
        | Some (Some i) => Some (Some (S i))
        | r => r
        end
  end.

(** [field.replace(/^files\[/, '').replace(/\]\[\]$/, '').replace(/\]$/, '')] *)
Definition cleanFieldName (field : string) : string :=
  remove_suffix "]" (remove_suffix "][]" (remove_prefix "files[" field)).

Definition reserved : list string :=
  ["main"; "variants"; "variants[]"; "video"; "preview"].

(** [`../AXOLI/DATA/ASSETS/${id}/${path.basename(f.path)}`] *)
Definition asset_path (theme id : string) (f : File) : string :=
  "../AXOLI/DATA/ASSETS/" +:+ id +:+ "/" +:+ basename (filename theme id f).

(** The value stored for a field: the path of its file when it has one
    file, the array of the paths otherwise. *)
Definition file_value (theme id : string) (arr : list File) : ThemeValue :=
  match arr with
  | [f] => One (asset_path theme id f)
  | _ => Many (asset_path theme id <$> arr)
  end.

(** One turn of the loop over [Object.entries(filesByField)] of the
    flexible themes; the two [continue] come first.  The assignment
    [themeData[cleanFieldName] = ...] under the key [__proto__] runs the
    setter that every object inherits, and gives [themeData] no entry. *)
Definition add_file_entry (theme id : string)
    (themeData : gmap string ThemeValue) (g : string * list File)
    : gmap string ThemeValue :=
  if bool_decide (g.1 ∈ reserved) then themeData
  else if bool_decide (g.2 = []) then themeData
  else if bool_decide (cleanFieldName g.1 = "__proto__") then themeData
  else <[cleanFieldName g.1 := file_value theme id g.2]> themeData.

Definition add_file_entries (theme id : string)
    (groups : list (string * list File)) (themeData : gmap string ThemeValue)
    : gmap string ThemeValue :=
  foldl (add_file_entry theme id) themeData (entries groups).

(** The object [data] after the three defaults are filled in. *)
Definition seeded (data : Doc.t) : Doc.t :=
  {| Doc.brandLogo := Some (or_else (Doc.brandLogo data) "../AXOLI/DATA/logo.svg");
     Doc.sizeIcon := Some (or_else (Doc.sizeIcon data) "../AXOLI/DATA/size.svg");
     Doc.designs := Some (designs_of data) |}.

(** [if (idx >= 0) data.designs[idx] = { ...data.designs[idx], ...payload };
     else data.designs.push(payload);]
    where [payload idx] is the payload built for that index. *)
Definition upsert (data : Doc.t) (id : string)
    (payload : option Design.t → Design.t) : Reply Doc.t :=
  let ds := designs_of data in
  match findIndex id ds with
  | None => Failed 500 "Upload failed"
  | Some None => Sent (set_designs data (ds ++ [Some (payload None)]))
  | Some (Some idx) =>
      match ds !! idx with
      | Some (Some old) =>
          Sent (set_designs data (<[idx := Some (spread old (payload (Some old)))]> ds))
      | _ => Failed 500 "Upload failed"
      end
  end.

(** The payload of the default theme; [old] is the stored record, if any. *)
Definition default_payload (id label finish : string) (faces now : Z)
    (mainRel : option string) (variantRels : list string)
    (videoRel previewRel sizeText : option string)
    (old : option Design.t) : Design.t :=
  {| Design.id := id; Design.theme := "default"; Design.label := label;
     Design.finish := finish; Design.faces := faces; Design.updatedAt := now;
     Design.main := mainRel;
     Design.variants :=
       if bool_decide (variantRels = []) then None else Some variantRels;
     Design.video := videoRel; Design.preview := previewRel;
     Design.sizeText := sizeText;
     Design.themeData := None; Design.position := None;
     Design.createdAt := if old is None then Some now else None |}.

(** The payload of a flexible theme:
    [themeData: { ...(idx >= 0 ? data.designs[idx].themeData : {}), ...themeData }]. *)
Definition flexible_payload (id theme label finish : string) (faces now : Z)
    (themeData : gmap string ThemeValue) (old : option Design.t) : Design.t :=
  {| Design.id := id; Design.theme := theme; Design.label := label;
     Design.finish := finish; Design.faces := faces; Design.updatedAt := now;
     Design.main := None; Design.variants := None;
     Design.video := None; Design.preview := None; Design.sizeText := None;
     Design.themeData :=
       Some (themeData ∪ default ∅ (old ≫= Design.themeData));
     Design.position := None;
     Design.createdAt := if old is None then Some now else None |}.

(** A file of a single-file field of the default theme: absent, refused
    (the message of the 400), or accepted with its extension. *)
Definition checked (groups : list (string * list File)) (k : string)
    (allowed : list string) (error : string)
    : Reply (option (File * string)) :=
  match field k groups ≫= head with
  | None => Sent None
  | Some f =>
      match safeExt (originalname f) allowed with
      | None => Failed 400 error
      | Some ext => Sent (Some (f, ext))
      end
  end.

Definition reply_bind {A B} (r : Reply A) (k : A → Reply B) : Reply B :=
  match r with
  | Sent a => k a
  | Failed status error => Failed status error
  end.

(** The payload the handler builds from the request, as a function of the
    stored record of the id; or the 400 of a refused file, or the 500 of a
    variant file that cannot be moved.  [now] is [Date.now()] at the start
    of the handler. *)
Definition payload (id : string) (req : Request) (now : Z)
    : Reply (option Design.t → Design.t) :=
  let label := or_else (body_label req) id in
  let finish := or_else (body_finish req) "" in
  let faces := body_faces req in
  let theme := or_else (body_theme req) "default" in
  let groups := filesByField (files req) in
  if bool_decide (theme = "default") then
    reply_bind (checked groups "main" images "Main: invalid image type")
      (λ main,
    let mainRel :=
      (λ m : File * string,
         "../AXOLI/DATA/TILES/" +:+ id +:+ "/"
         +:+ basename (filename theme id m.1))
      <$> main in
    reply_bind
      match rename_variants id 2 [] (variant_files groups) with
      | Some renamed => Sent renamed
      | None => Failed 500 "Upload failed"
      end
      (λ renamed,
    let variantRels :=
      (λ r : File * string, "../AXOLI/DATA/TILES/" +:+ id +:+ "/" +:+ r.2)
      <$> renamed in
    reply_bind (checked groups "video" ["mp4"] "Video: only mp4 allowed")
      (λ vid,
    let videoRel :=
      (λ _ : File * string, "../AXOLI/DATA/VIDEO/" +:+ id +:+ ".mp4")
      <$> vid in
    reply_bind (checked groups "preview" images "Preview: invalid image type")
      (λ prev,
    let previewRel :=
      (λ p : File * string,
         "../AXOLI/DATA/PREVIEW/" +:+ id +:+ "." +:+ p.2) <$> prev in
    Sent (default_payload id label finish faces now mainRel variantRels
            videoRel previewRel (body_sizeText req))))))
  else
    let themeData := add_file_entries theme id groups (body_data req) in
    Sent (flexible_payload id theme label finish faces now themeData).

(** The handler up to the write of the catalogue: the document to write and
    to send, or the error. *)
Definition upload (data : Doc.t) (req : Request) (now : Z) : Reply Doc.t :=
  let id := slug (or_else (body_id req) "") in
  if bool_decide (id = "")
  then Failed 400 "Missing id (couldn't derive from filename)"
  else if grouping_throws (files req) then Failed 500 "Upload failed"
  else reply_bind (payload id req now) (upsert (seeded data) id).

(** The catalogue file is written on success only. *)
Definition post_upload (data : Doc.t) (req : Request) (now : Z)
    : Reply Doc.t * Doc.t :=
  match upload data req now with
  | Sent data' => (Sent data', data')
  | Failed status error => (Failed status error, data)
  end.

End Upload.

(** ** Specification *)

(** The order of a comparator: [a] may come before [b]. *)
Definition cmp_le {A : Type} (cmp : A → A → Z) (a b : A) : Prop := cmp a b ≤ 0.

(** The display order: ascending position, a record without one counting
    as position 10^12; records of equal position by ascending creation
    time, a record without one counting as created at 0. *)
Definition display_le (a b : Design.t) : Prop :=
  let pa := default sentinel (Design.position a) in
  let pb := default sentinel (Design.position b) in
  pa < pb
  ∨ (pa = pb ∧ default 0 (Design.createdAt a) ≤ default 0 (Design.createdAt b)).

(** The display order when a missing position is taken to be infinite. *)
Definition infinity_le (a b : Design.t) : Prop :=
  match Design.position a, Design.position b with
  | Some pa, Some pb =>
      pa < pb
      ∨ (pa = pb
         ∧ default 0 (Design.createdAt a) ≤ default 0 (Design.createdAt b))
  | Some _, None => True
  | None, Some _ => False
  | None, None =>
      default 0 (Design.createdAt a) ≤ default 0 (Design.createdAt b)
  end.

(** The invariant of the catalogue: every entry is a record, and no two
    records have the same id. *)
Definition unique_ids (data : Doc.t) : Prop :=
  ∃ ds, designs_of data = Some <$> ds ∧ NoDup (Design.id <$> ds).

(** The record the handlers find for an id: the first that has it. *)
Definition record_of (id : string) (data : Doc.t) : option Design.t :=
  match findIndex id (designs_of data) with
  | Some (Some i) => designs_of data !! i ≫= (λ d, d)
  | _ => None
  end.

(** The upsert in the words of the specification. [c] is what the request
    carries. Without a stored record, [c] is appended. With one, the
    incoming theme, label, finish, faces and updatedAt replace the stored
    ones; an asset field is the incoming one when the request carries it
    and the stored one otherwise; themeData is merged key by key, an
    incoming key over a stored one; position and createdAt stay. *)
Definition upsert_spec (old : option Design.t) (c : Design.t) : Design.t :=
  match old with
  | None => c
  | Some o =>
      {| Design.id := Design.id c; Design.theme := Design.theme c;
         Design.label := Design.label c; Design.finish := Design.finish c;
         Design.faces := Design.faces c;
         Design.updatedAt := Design.updatedAt c;
         Design.main := over (Design.main c) (Design.main o);
         Design.variants := over (Design.variants c) (Design.variants o);
         Design.video := over (Design.video c) (Design.video o);
         Design.preview := over (Design.preview c) (Design.preview o);
         Design.sizeText := over (Design.sizeText c) (Design.sizeText o);
         Design.themeData :=
           match Design.themeData c with
           | Some td => Some (td ∪ default ∅ (Design.themeData o))
           | None => Design.themeData o
           end;
         Design.position := Design.position o;
         Design.createdAt := Design.createdAt o |}
  end.

Section UploadSpecification.
Context `{JsString}.

(** What a request carries: the record it stores under an id that has
    none. *)
Definition carried (id : string) (req : Request) (now : Z) : Reply Design.t :=
  reply_bind (payload id req now) (λ p, Sent (p None)).

(** The variant files that are accepted, each with its extension. *)
Definition accepted (variants : list File) : list (File * string) :=
  omap (λ f, (λ ext, (f, ext)) <$> safeExt (originalname f) images) variants.

End UploadSpecification.

(** ** Test data *)

(** A record and a document to run the handlers on. *)
Definition design (id : string) (position createdAt : option Z) : Design.t :=
  {| Design.id := id; Design.theme := "default"; Design.label := id;
     Design.finish := ""; Design.faces := 0; Design.updatedAt := 0;
     Design.main := None; Design.variants := None; Design.video := None;
     Design.preview := None; Design.sizeText := None;
     Design.themeData := None;
     Design.position := position; Design.createdAt := createdAt |}.

Definition catalogue (ds : list Design.t) : Doc.t :=
  {| Doc.brandLogo := Some "../AXOLI/DATA/logo.svg";
     Doc.sizeIcon := Some "../AXOLI/DATA/size.svg";
     Doc.designs := Some (Some <$> ds) |}.

Definition ab : list Design.t :=
  [design "A" None (Some 1); design "B" None (Some 2)].

Definition abcd : list Design.t :=
  [design "A" (Some 1) None; design "B" (Some 2) None;
   design "C" (Some 3) None; design "D" (Some 4) None].

Definition tiles : list Design.t :=
  [design "TILE_1" None (Some 1); design "TILE_2" None (Some 2)].

(** Requests and files to run the upload on. *)
Definition file (fieldname originalname : string) (stamp : Z) : File :=
  {| fieldname := fieldname; originalname := originalname; stamp := stamp |}.

Definition request (id : string) (label finish theme : option string)
    (faces : Z) (files : list File) : Request :=
  {| body_id := Some id; body_label := label; body_finish := finish;
     body_theme := theme; body_faces := faces; body_sizeText := None;
     body_data := ∅; files := files |}.

Definition blue_main : Request :=
  request "tile1" (Some "Blue") (Some "matt") None 4 [file "main" "a.png" 1].

Definition blue_video : Request :=
  request "tile1" None None None 0 [file "video" "v.mp4" 2].




(** ** Deriving the id and the label from a file name *)

(** [s.replace(/[p]+/g, rep)] for a character class [p]: the first character
    of a run of the class produces [rep], the rest of the run nothing. *)
Fixpoint replace_class (p : ascii → bool) (rep : ascii) (in_run : bool)
    (s : string) : string :=
  match s with
  | "" => ""
  | String c r =>
      if p c then
        if in_run then replace_class p rep true r
        else String rep (replace_class p rep true r)
      else String c (replace_class p rep false r)
  end.

(** The class [[_\-]] of [labelFromBase]. *)
Definition is_separator (c : ascii) : bool :=
  bool_decide (c = "_"%char) || bool_decide (c = "-"%char).

(** The class [\s] of the host's regular expressions is Unicode-aware as
    [trim] is: [replace_white_space s] is [s.replace(/\s+/g, " ")]. *)
Class JsRegExp := {
  replace_white_space : string → string
}.

(** The white space of ASCII, to run the examples. *)
Global Instance ascii_regexp : JsRegExp := {|
  replace_white_space := replace_class Ascii.is_space " " false
|}.

Definition is_ascii (c : ascii) : bool := (N_of_ascii c <? 128)%N.

(** [toUpperCase] maps a string character by character, whatever is around
    the character (unlike [toLowerCase], which looks at what follows a
    sigma): it is [ascii_upper] on ASCII text, and an ASCII prefix can be
    split off.  The delete handler relies on it for the file names it
    compares. *)
Class JsUpperCase `{JsString} := {
  toUpperCase_ascii :
    ∀ s, string_forall is_ascii s = true →
         toUpperCase s = string_map ascii_upper s;
  toUpperCase_app :
    ∀ a b, string_forall is_ascii a = true →
           toUpperCase (a +:+ b) = toUpperCase a +:+ toUpperCase b
}.

(** [path.basename(filename, path.extname(filename))]: the extension is a
    suffix of the base name, or empty. *)
Definition baseNameNoExt (filename : string) : string :=
  remove_suffix (extname filename) (basename filename).

(** [req.body.id = id; req.body.label = label;] *)
Definition set_id_label (req : Request) (id label : string) : Request :=
  {| body_id := Some id; body_label := Some label;
     body_finish := body_finish req; body_theme := body_theme req;
     body_faces := body_faces req; body_sizeText := body_sizeText req;
     body_data := body_data req; files := files req |}.

Section Derive.
Context `{JsString} `{JsRegExp}.

(** [base.replace(/[_\-]+/g, " ").replace(/\s+/g, " ").trim().toUpperCase()] *)
Definition labelFromBase (base : string) : string :=
  toUpperCase
    (trim (replace_white_space (replace_class is_separator " " false base))).

(** [ensureIdAndLabel(req, file)] on the request and its flag
    [req._didDeriveId]. *)
Definition ensureIdAndLabel (st : Request * bool) (file : File)
    : Request * bool :=
  if st.2 then st
  else
    let req := st.1 in
    let id := slug (or_else (body_id req) "") in
    let label := or_else (body_label req) "" in
    if bool_decide (id = "") then
      let base := baseNameNoExt (originalname file) in
      if bool_decide (base = "") then (req, true)
      else
        (set_id_label req (slug base)
           (if bool_decide (label = "") then labelFromBase base else label),
         true)
    else (req, true).

(** [path.join(dir, name)] for a name without slash or dot: an empty name
    adds nothing. *)
Definition join (dir name : string) : string :=
  if bool_decide (name = "") then dir else dir +:+ "/" +:+ name.

(** The [destination] callback of the multer storage, once the id is
    derived: the directory, under [public/AXOLI/DATA]. *)
Definition destination (theme id : string) (f : File) : string :=
  let tilesDir := join "TILES" id in
  let assetDir := join "ASSETS" id in
  if bool_decide (theme = "default") then
    if bool_decide (fieldname f = "main") then tilesDir
    else if is_prefix "variants" (fieldname f) then tilesDir
    else if bool_decide (fieldname f = "video") then "VIDEO"
    else if bool_decide (fieldname f = "preview") then "PREVIEW"
    else assetDir
  else assetDir.

(** What multer does with one file: the [destination] callback, then the
    [filename] callback, each of which calls [ensureIdAndLabel] first and
    reads the theme and the id of the body afterwards. *)
Definition store (st : Request * bool) (f : File)
    : (Request * bool) * (string * string) :=
  let st1 := ensureIdAndLabel st f in
  let dest :=
    destination (or_else (body_theme st1.1) "default")
      (slug (or_else (body_id st1.1) "")) f in
  let st2 := ensureIdAndLabel st1 f in
  let name :=
    filename (or_else (body_theme st2.1) "default")
      (slug (or_else (body_id st2.1) "")) f in
  (st2, (dest, name)).

(** [upload.any()]: the files in the order of the body, the text fields of
    which are taken to come before the files.  The result is the request
    the handler reads and, for each file, where it is stored. *)
Fixpoint multer (st : Request * bool) (fs : list File)
    : (Request * bool) * list (string * string) :=
  match fs with
  | [] => (st, [])
  | f :: rest =>
      let r := store st f in
      let rs := multer r.1 rest in
      (rs.1, r.2 :: rs.2)
  end.


End Derive.

(** ** The files a delete removes *)

Section Removal.
Context `{JsString}.

(** [const safeStarts = (name) => name.toUpperCase().startsWith(upper + ".")] *)
Definition safeStarts (upper name : string) : bool :=
  is_prefix (upper +:+ ".") (toUpperCase name).

(** What the delete handler removes for an id that is not empty: the two
    directories of the id, and the files of the shared preview and video
    directories that [safeStarts] selects.  A listing is [None] when
    [fs.readdir] fails, and nothing of it is removed. *)
Record Cleanup := {
  removed_dirs : list string;
  removed_previews : list string;
  removed_videos : list string
}.

Definition cleanup (id : string) (prevFiles vidFiles : option (list string))
    : Cleanup :=
  let upper := toUpperCase id in
  {| removed_dirs := [join "TILES" id; join "ASSETS" id];
     removed_previews :=
       filter (λ n, safeStarts upper n = true) (default [] prevFiles);
     removed_videos :=
       filter (λ n, safeStarts upper n = true) (default [] vidFiles) |}.

(** The handler removes files after it has written the catalogue: a delete
    that is refused removes nothing. *)
Definition delete_files (data : Doc.t) (raw : string)
    (prevFiles vidFiles : option (list string)) : option Cleanup :=
  match (delete_design data raw).1 with
  | Sent _ => Some (cleanup (slug raw) prevFiles vidFiles)
  | Failed _ _ => None
  end.

End Removal.

(** ** The catalogues the server can reach *)

Section Requests.
Context `{JsString}.

(** The document the server writes at start-up into an empty file. *)
Definition initial : Doc.t :=
  {| Doc.brandLogo := Some "../AXOLI/DATA/logo.svg";
     Doc.sizeIcon := Some "../AXOLI/DATA/size.svg";
     Doc.designs := Some [] |}.

(** One request, of any of the four kinds, handled from its read of the
    catalogue file to its write without another request in between. *)
Inductive step (data : Doc.t) : Doc.t → Prop :=
  | step_get : step data (get_designs data).2
  | step_upload req now : step data (post_upload data req now).2
  | step_order theme order : step data (put_order data theme order).2
  | step_delete raw : step data (delete_design data raw).2.

Definition reachable (data : Doc.t) : Prop := rtc step initial data.

End Requests.

(** ** Records and files, for the statements *)

(** [d.updatedAt = t] *)
Definition set_updatedAt (t : Z) (d : Design.t) : Design.t :=
  {| Design.id := Design.id d; Design.theme := Design.theme d;
     Design.label := Design.label d; Design.finish := Design.finish d;
     Design.faces := Design.faces d; Design.updatedAt := t;
     Design.main := Design.main d; Design.variants := Design.variants d;
     Design.video := Design.video d; Design.preview := Design.preview d;
     Design.sizeText := Design.sizeText d;
     Design.themeData := Design.themeData d;
     Design.position := Design.position d;
     Design.createdAt := Design.createdAt d |}.

(** A record without its position. *)
Definition clear_position (d : Design.t) : Design.t :=
  {| Design.id := Design.id d; Design.theme := Design.theme d;
     Design.label := Design.label d; Design.finish := Design.finish d;
     Design.faces := Design.faces d; Design.updatedAt := Design.updatedAt d;
     Design.main := Design.main d; Design.variants := Design.variants d;
     Design.video := Design.video d; Design.preview := Design.preview d;
     Design.sizeText := Design.sizeText d;
     Design.themeData := Design.themeData d;
     Design.position := None;
     Design.createdAt := Design.createdAt d |}.

(** The first file of a form field, in the order of the upload. *)
Definition first_file (k : string) (fs : list File) : option File :=
  head (filter (λ f, fieldname f = k) fs).

(** An upload without an id. *)
Definition unnamed_upload : Request :=
  {| body_id := None; body_label := None; body_finish := None;
     body_theme := None; body_faces := 0; body_sizeText := None;
     body_data := ∅;
     files := [file "main" "photos/Blue_Marble-01.PNG" 1;
               file "video" "clip.mp4" 2] |}.

Section Sound.
Context `{JsString}.

(** What every record of a catalogue that the server has built satisfies:
    its id is normalized and not empty, its theme and its label are not
    empty, it has a creation time, and its position, when it has one, is
    at least 1. *)
Definition sound_record (d : Design.t) : Prop :=
  slug (Design.id d) = Design.id d
  ∧ Design.id d ≠ ""
  ∧ Design.theme d ≠ ""
  ∧ Design.label d ≠ ""
  ∧ is_Some (Design.createdAt d)
  ∧ ∀ p, Design.position d = Some p → 1 ≤ p.

(** The document has the logo and the size icon it started with, an array
    of designs, and sound records. *)
Definition sound (data : Doc.t) : Prop :=
  Doc.brandLogo data = Some "../AXOLI/DATA/logo.svg"
  ∧ Doc.sizeIcon data = Some "../AXOLI/DATA/size.svg"
  ∧ is_Some (Doc.designs data)
  ∧ ∀ d, Some d ∈ designs_of data → sound_record d.

End Sound.

Section VariantSpecification.
Context `{JsString}.

(** The names under which multer stored the variant files that are
    accepted. *)
Definition variant_sources (id : string) (variants : list File) : list string :=
  (λ fe : File * string, filename "default" id fe.1) <$> accepted variants.

End VariantSpecification.


(** An upload of two variant files that multer names alike. *)
Definition tile1_twins : Request :=
  request "TILE1" None None None 0
    [file "variants[]" "a.jpg" 5; file "variants[]" "b.jpg" 5].

(** An upload of the theme neo whose field wraps the key [__proto__]. *)
Definition neo_proto : Request :=
  request "tile1" None None (Some "neo") 0
    [file "files[__proto__]" "p.png" 11].

(** An upload of the theme neo whose field name has a slash. *)
Definition neo_slash : Request :=
  request "K" None None (Some "neo") 0 [file "../y" "y.png" 7].

(** Two uploads, of a design A and of a design B. *)
Definition upload_a : Request :=
  request "a" None None None 0 [file "main" "a.png" 1].

Definition upload_b : Request :=
  request "b" None None None 0 [file "main" "b.png" 2].

(** * Properties *)

(** ** Strings *)

Lemma app_cons a s1 s2 : String a s1 +:+ s2 = String a (s1 +:+ s2).
Proof. reflexivity. Qed.

Lemma app_empty_r s : s +:+ "" = s.
Proof. induction s as [|a s IH]; [done|]. by rewrite app_cons, IH. Qed.

Lemma app_assoc_string s1 s2 s3 : (s1 +:+ s2) +:+ s3 = s1 +:+ (s2 +:+ s3).
Proof. induction s1 as [|a s1 IH]; [done|]. by rewrite !app_cons, IH. Qed.

Lemma rev_app_spec s acc : String.rev_app s acc = String.rev s +:+ acc.
Proof.
  revert acc. induction s as [|a s IH]; intros acc; [done|].
  unfold String.rev. simpl. rewrite (IH (String a acc)), (IH (String a "")).
  by rewrite app_assoc_string.
Qed.

Lemma rev_cons a s : String.rev (String a s) = String.rev s +:+ String a "".
Proof. unfold String.rev at 1. simpl. apply rev_app_spec. Qed.

Lemma rev_app_string s1 s2 :
  String.rev (s1 +:+ s2) = String.rev s2 +:+ String.rev s1.
Proof.
  induction s1 as [|a s1 IH]; [by rewrite app_empty_r|].
  by rewrite app_cons, !rev_cons, IH, app_assoc_string.
Qed.

Lemma rev_rev s : String.rev (String.rev s) = s.
Proof.
  induction s as [|a s IH]; [done|].
  by rewrite rev_cons, rev_app_string, IH.
Qed.

Lemma strip_prefix_app p s : strip_prefix p (p +:+ s) = Some s.
Proof.
  induction p as [|a p IH]; [by destruct s|].
  rewrite app_cons. simpl. by rewrite bool_decide_eq_true_2.
Qed.

Lemma strip_prefix_Some p s r : strip_prefix p s = Some r → s = p +:+ r.
Proof.
  revert s. induction p as [|a p IH]; intros s; simpl.
  { destruct s; by intros [= <-]. }
  destruct s as [|b s]; [done|]. case_bool_decide as Hab; [|done].
  intros Hr. rewrite app_cons, <-(IH _ Hr). by subst.
Qed.

Lemma remove_suffix_app p s : remove_suffix p (s +:+ p) = s.
Proof.
  unfold remove_suffix, remove_prefix.
  rewrite rev_app_string, strip_prefix_app. apply rev_rev.
Qed.

Lemma remove_suffix_none p s : (∀ r, s ≠ r +:+ p) → remove_suffix p s = s.
Proof.
  intros Hs. unfold remove_suffix, remove_prefix.
  destruct (strip_prefix _ _) as [r|] eqn:Hr; simpl; [|apply rev_rev].
  apply strip_prefix_Some in Hr. destruct (Hs (String.rev r)).
  by rewrite <-(rev_rev s), Hr, rev_app_string, rev_rev.
Qed.

Lemma remove_prefix_none p s : (∀ r, s ≠ p +:+ r) → remove_prefix p s = s.
Proof.
  intros Hs. unfold remove_prefix.
  destruct (strip_prefix p s) as [r|] eqn:Hr; [|done].
  apply strip_prefix_Some in Hr. by destruct (Hs r).
Qed.

Lemma app_inj_r s1 s2 p : s1 +:+ p = s2 +:+ p → s1 = s2.
Proof.
  intros Heq. apply (f_equal String.rev) in Heq.
  rewrite !rev_app_string in Heq. apply (inj _) in Heq.
  by rewrite <-(rev_rev s1), Heq, rev_rev.
Qed.

Lemma take_drop_while (p : ascii → bool) s :
  take_while p s +:+ drop_while p s = s.
Proof.
  induction s as [|c s IH]; simpl; [done|].
  destruct (p c); [|done]. by rewrite app_cons, IH.
Qed.

Lemma take_while_forall (p : ascii → bool) s :
  string_forall p (take_while p s) = true.
Proof.
  induction s as [|c s IH]; simpl; [done|].
  destruct (p c) eqn:Hc; simpl; [|done]. by rewrite Hc.
Qed.




(** A string that a run of [p] ends, and what [drop_while_end] leaves. *)
Lemma drop_while_end_split (p : ascii → bool) s :
  ∃ b, s = drop_while_end p s +:+ b ∧ string_forall p b = true.
Proof.
  induction s as [|c s (b & Hs & Hb)]; [by exists ""|]. simpl.
  destruct (drop_while_end p s) as [|c' s'] eqn:Hd.
  - destruct (p c) eqn:Hc.
    + exists (String c s). split; [done|]. simpl. rewrite Hc. simpl.
      by rewrite Hs.
    + exists b. split; [|done]. by rewrite app_cons, <-Hs.
  - exists b. split; [|done]. by rewrite app_cons, <-Hs.
Qed.

Lemma slug_char_upper c : slug_char c = true → ascii_upper c = c.
Proof. destruct c as [[] [] [] [] [] [] [] []]; vm_compute; congruence. Qed.

Lemma slug_char_not_space c : slug_char c = true → Ascii.is_space c = false.
Proof. destruct c as [[] [] [] [] [] [] [] []]; vm_compute; congruence. Qed.

Lemma string_forall_impl (p q : ascii → bool) s :
  (∀ c, p c = true → q c = true) →
  string_forall p s = true → string_forall q s = true.
Proof.
  intros Hpq. induction s as [|c r IH]; simpl; [done|].
  rewrite !andb_true_iff. intros [Hc Hr]. auto.
Qed.

Lemma string_map_id (f : ascii → ascii) (p : ascii → bool) s :
  (∀ c, p c = true → f c = c) → string_forall p s = true → string_map f s = s.
Proof.
  intros Hf. induction s as [|c r IH]; simpl; [done|].
  rewrite andb_true_iff. intros [Hc Hr]. by rewrite Hf, IH.
Qed.

Lemma drop_while_none (p : ascii → bool) s :
  string_forall (λ c, negb (p c)) s = true → drop_while p s = s.
Proof.
  destruct s as [|c r]; simpl; [done|].
  rewrite andb_true_iff, negb_true_iff. by intros [-> _].
Qed.

Lemma drop_while_end_none (p : ascii → bool) s :
  string_forall (λ c, negb (p c)) s = true → drop_while_end p s = s.
Proof.
  induction s as [|c r IH]; simpl; [done|].
  rewrite andb_true_iff, negb_true_iff. intros [Hc Hr].
  rewrite IH, Hc by done. by destruct r.
Qed.


Lemma ascii_trim_slug_chars s :
  string_forall slug_char s = true → ascii_trim s = s.
Proof.
  intros Hs. unfold ascii_trim.
  assert (string_forall (λ c, negb (Ascii.is_space c)) s = true) as Hn.
  { eapply string_forall_impl; [|done].
    intros c Hc. by rewrite slug_char_not_space. }
  by rewrite drop_while_none, drop_while_end_none.
Qed.

(** The ASCII implementation of the host's string methods. *)
Global Instance ascii_strings : JsString := {|
  trim := ascii_trim;
  toUpperCase := string_map ascii_upper;
  toLowerCase := string_map ascii_lower;
  trim_slug_chars := ascii_trim_slug_chars;
  toUpperCase_slug_chars s := string_map_id ascii_upper slug_char s slug_char_upper
|}.

Example slug_example :
  slug "  blue marble-01.v2 " = "BLUE_MARBLE_01_V2"
  ∧ slug "__a__b__" = "A__B" ∧ slug " -- " = "" ∧ slug "é_x" = "X".
Proof. repeat split; vm_compute; reflexivity. Qed.

Example extname_example :
  extname "Blue Marble.PNG" = ".PNG" ∧ extname ".bashrc" = ""
  ∧ extname "a.tar.gz" = ".gz" ∧ extname "dir.d/file" = ""
  ∧ extname ".." = "" ∧ extname "a." = "." ∧ extname "x/y.jpg/" = ".jpg".
Proof. repeat split; vm_compute; reflexivity. Qed.

Example cleanFieldName_example :
  cleanFieldName "files[swatch][]" = "swatch"
  ∧ cleanFieldName "files[badge]" = "badge"
  ∧ cleanFieldName "hero" = "hero" ∧ cleanFieldName "a[]" = "a[".
Proof. repeat split; vm_compute; reflexivity. Qed.

(** ** The identifier normalizer *)

Lemma replace_runs_chars b s :
  string_forall slug_char (replace_runs b s) = true.
Proof.
  revert b. induction s as [|c r IH]; intros b; simpl; [done|].
  destruct (slug_char c) eqn:Hc; simpl; [by rewrite Hc, IH|].
  destruct b; simpl; by rewrite IH.
Qed.

Lemma replace_runs_fixed b s :
  string_forall slug_char s = true → replace_runs b s = s.
Proof.
  revert b. induction s as [|c r IH]; intros b; simpl; [done|].
  rewrite andb_true_iff. intros [-> Hr]. by rewrite IH.
Qed.

Lemma drop_while_forall (p q : ascii → bool) s :
  string_forall q s = true → string_forall q (drop_while p s) = true.
Proof.
  induction s as [|c r IH]; simpl; [done|].
  rewrite andb_true_iff. intros [Hc Hr].
  destruct (p c); simpl; [auto|]. by rewrite Hc, Hr.
Qed.

Lemma drop_while_end_forall (p q : ascii → bool) s :
  string_forall q s = true → string_forall q (drop_while_end p s) = true.
Proof.
  induction s as [|c r IH]; simpl; [done|].
  rewrite andb_true_iff. intros [Hc Hr]. specialize (IH Hr).
  destruct (drop_while_end p r) as [|c' r'].
  - destruct (p c); simpl; [done|]. by rewrite Hc.
  - simpl in *. by rewrite Hc, IH.
Qed.

Lemma drop_while_head (p : ascii → bool) s c r :
  drop_while p s = String c r → p c = false.
Proof.
  induction s as [|c' r' IH]; simpl; [done|].
  destruct (p c') eqn:Hc; [done|]. by intros [= <- <-].
Qed.

Lemma drop_while_end_head (p : ascii → bool) s c r :
  drop_while_end p s = String c r → ∃ r', s = String c r'.
Proof.
  destruct s as [|c' r']; simpl; [done|].
  destruct (drop_while_end p r'); [destruct (p c')|]; intros [= <- <-]; eauto.
Qed.

Lemma drop_while_end_last (p : ascii → bool) s r c :
  drop_while_end p s = r +:+ String c "" → p c = false.
Proof.
  revert r. induction s as [|c' r' IH]; intros r; simpl.
  { by destruct r. }
  destruct (drop_while_end p r') as [|c'' r''] eqn:Hd.
  - destruct (p c') eqn:Hc; [by destruct r|].
    destruct r as [|? [|]]; intros [=]; by subst.
  - destruct r as [|a r]; [done|]. intros [= <- Hr]. by eapply IH.
Qed.

Lemma strip_underscores_fixed s :
  (∀ r, s ≠ String "_" r) → (∀ r, s ≠ r +:+ "_") → strip_underscores s = s.
Proof.
  intros Hhead Hlast. unfold strip_underscores.
  assert (drop_while is_underscore s = s) as ->.
  { destruct s as [|c r]; simpl; [done|].
    unfold is_underscore. case_bool_decide; [|done]. subst. by destruct (Hhead r). }
  clear Hhead. induction s as [|c r IH]; simpl; [done|].
  rewrite IH.
  - destruct r; [|done]. unfold is_underscore. case_bool_decide; [|done].
    subst. by destruct (Hlast "").
  - intros r' ->. by destruct (Hlast (String c r')).
Qed.

Lemma strip_underscores_head s r : strip_underscores s ≠ String "_" r.
Proof.
  unfold strip_underscores. intros Heq.
  destruct (drop_while_end_head _ _ _ _ Heq) as [r' Hr'].
  by apply drop_while_head in Hr'.
Qed.

Lemma strip_underscores_last s r : strip_underscores s ≠ r +:+ "_".
Proof.
  unfold strip_underscores. intros Heq. by apply drop_while_end_last in Heq.
Qed.

(** [runs] is the decomposition into maximal runs: the runs give the string
    back, each is one non-empty stretch inside or outside the class, and
    neighbours are of different kinds. *)
Lemma runs_concat s : concat_strings (snd <$> runs s) = s.
Proof.
  induction s as [|c r IH]; simpl; [done|].
  destruct (runs r) as [|[b w] rest]; simpl in *; [by rewrite <-IH|].
  case_bool_decide; simpl; by rewrite <-IH.
Qed.

Lemma runs_uniform s :
  Forall (λ bw : bool * string,
    bw.2 ≠ "" ∧ string_forall (λ c, bool_decide (slug_char c = bw.1)) bw.2 = true)
    (runs s).
Proof.
  induction s as [|c r IH]; simpl; [constructor|].
  destruct (runs r) as [|[b w] rest]; simpl in *.
  - repeat constructor; simpl; [done|]. by rewrite bool_decide_eq_true_2.
  - case_bool_decide as Hb.
    + inversion_clear IH as [|?? [_ Hw] Hrest]. constructor; [|done].
      simpl in *. split; [done|]. by rewrite Hw, bool_decide_eq_true_2.
    + constructor; [|done]. simpl. split; [done|].
      by rewrite bool_decide_eq_true_2.
Qed.

Lemma runs_maximal s i bw bw' :
  runs s !! i = Some bw → runs s !! S i = Some bw' → bw.1 ≠ bw'.1.
Proof.
  revert i bw bw'. induction s as [|c r IH]; intros i bw bw'; simpl; [done|].
  destruct (runs r) as [|[b w] rest] eqn:Hr; [done|].
  case_bool_decide as Hb.
  - destruct i as [|i]; simpl.
    + intros [= <-] Hbw'. simpl. apply (IH 0%nat (b, w) bw'); done.
    + intros Hbw Hbw'. by apply (IH (S i) bw bw').
  - destruct i as [|i]; simpl.
    + intros [= <-] [= <-]. simpl. congruence.
    + intros Hbw Hbw'. by apply (IH i bw bw').
Qed.

(** The scan of [replace_runs] against the rule: started inside a run
    outside the class, it leaves out the underscore of that run. *)
Lemma replace_runs_runs s :
  replace_runs false s = replace_runs_spec s
  ∧ replace_runs true s =
      match runs s with
      | (false, _) :: rest =>
          concat_strings ((λ bw : bool * string, if bw.1 then bw.2 else "_") <$> rest)
      | _ => replace_runs_spec s
      end.
Proof.
  unfold replace_runs_spec.
  induction s as [|c r [IHf IHt]]; simpl; [done|].
  destruct (slug_char c) eqn:Hc.
  - rewrite IHf. destruct (runs r) as [|[[] w] rest]; simpl; done.
  - rewrite IHt. destruct (runs r) as [|[[] w] rest]; simpl; done.
Qed.

Lemma replace_runs_correct s : replace_runs false s = replace_runs_spec s.
Proof. apply replace_runs_runs. Qed.

(** What [strip_underscores] takes away is a run of underscores at each
    end. *)
Lemma strip_underscores_split s :
  ∃ a b,
    s = a +:+ strip_underscores s +:+ b
    ∧ string_forall is_underscore a = true
    ∧ string_forall is_underscore b = true.
Proof.
  unfold strip_underscores.
  destruct (drop_while_end_split is_underscore (drop_while is_underscore s))
    as (b & Hb & Hforall).
  exists (take_while is_underscore s), b. split_and!; [|apply take_while_forall|done].
  by rewrite <-Hb, take_drop_while.
Qed.

Section SlugProperties.
Context `{JsString}.

(** C5. The identifier normalizer [slug] is idempotent; its result is made
    of characters of [A-Z0-9_] only and neither begins nor ends with an
    underscore; and it is the upper-cased, trimmed input in which every
    maximal run of characters outside [A-Z0-9_] is replaced by one
    underscore, without the underscores at both ends: that string is the
    result between a run of underscores and a run of underscores, which,
    the result having no underscore at its ends, leaves one result. *)
Theorem slug_normalizes (s : string) :
  slug (slug s) = slug s
  ∧ string_forall slug_char (slug s) = true
  ∧ (∀ r, slug s ≠ "_" +:+ r)
  ∧ (∀ r, slug s ≠ r +:+ "_")
  ∧ slug s = strip_underscores (replace_runs_spec (toUpperCase (trim s)))
  ∧ ∃ a b,
      replace_runs_spec (toUpperCase (trim s)) = a +:+ slug s +:+ b
      ∧ string_forall is_underscore a = true
      ∧ string_forall is_underscore b = true.
Proof.
  assert (string_forall slug_char (slug s) = true) as Hchars.
  { apply drop_while_end_forall, drop_while_forall, replace_runs_chars. }
  assert (∀ r, slug s ≠ "_" +:+ r) as Hhead.
  { intros r. apply strip_underscores_head. }
  assert (∀ r, slug s ≠ r +:+ "_") as Hlast.
  { intros r. apply strip_underscores_last. }
  split_and!; try done.
  - unfold slug at 1.
    rewrite trim_slug_chars, toUpperCase_slug_chars by done.
    rewrite replace_runs_fixed by done.
    by apply strip_underscores_fixed.
  - unfold slug. by rewrite replace_runs_correct.
  - unfold slug. rewrite replace_runs_correct. apply strip_underscores_split.
Qed.

End SlugProperties.

(** ** Display order *)

Lemma records_Some (ds : list Design.t) : records (Some <$> ds) = Some ds.
Proof. by apply mapM_fmap_Some. Qed.

Lemma strongly_sorted_mono {A} (R R' : relation A) l :
  (∀ a b, R a b → R' a b) → StronglySorted R l → StronglySorted R' l.
Proof.
  intros HR. induction 1 as [|x l Hl IH Hx]; constructor; [done|].
  eapply Forall_impl; [done|]. auto.
Qed.

Lemma sorted_mono {A} (R R' : relation A) l :
  (∀ a b, R a b → R' a b) → Sorted R l → Sorted R' l.
Proof.
  intros HR. induction 1 as [|x l Hl IH Hx]; constructor; [done|].
  destruct Hx; constructor; auto.
Qed.

Section SortProperties.
Context {A : Type} (cmp : A → A → Z).

Lemma insert_sorted_perm x l : insert_sorted cmp x l ≡ₚ x :: l.
Proof.
  induction l as [|y l IH]; simpl; [done|].
  case_bool_decide; [done|]. rewrite IH. apply Permutation_swap.
Qed.

Lemma sort_perm l : sort cmp l ≡ₚ l.
Proof.
  induction l as [|x l IH]; simpl; [done|].
  by rewrite insert_sorted_perm, IH.
Qed.

Lemma sort_length l : length (sort cmp l) = length l.
Proof. by rewrite sort_perm. Qed.

(** A list that is in order already is left as it is: the sort is stable. *)
Lemma sort_sorted_id l : Sorted (cmp_le cmp) l → sort cmp l = l.
Proof.
  induction 1 as [|x l Hl IH Hx]; simpl; [done|].
  rewrite IH. destruct Hx as [|y l' Hxy]; simpl; [done|].
  by rewrite bool_decide_eq_true_2.
Qed.

Context (cmp_total : ∀ a b, cmp_le cmp a b ∨ cmp_le cmp b a).
Context (cmp_trans : ∀ a b c, cmp_le cmp a b → cmp_le cmp b c → cmp_le cmp a c).

Lemma insert_sorted_sorted x l :
  StronglySorted (cmp_le cmp) l → StronglySorted (cmp_le cmp) (insert_sorted cmp x l).
Proof.
  induction 1 as [|y l Hl IH Hy]; simpl; [by repeat constructor|].
  case_bool_decide as Hxy.
  - constructor; [by constructor|].
    constructor; [done|]. eapply Forall_impl; [done|]. eauto.
  - constructor; [done|].
    rewrite insert_sorted_perm. constructor; [|done].
    by destruct (cmp_total x y).
Qed.

Lemma sort_sorted l : StronglySorted (cmp_le cmp) (sort cmp l).
Proof.
  induction l as [|x l IH]; simpl; [constructor|].
  by apply insert_sorted_sorted.
Qed.

End SortProperties.

Lemma compare_designs_le a b :
  cmp_le compare_designs a b ↔ display_le a b.
Proof.
  unfold cmp_le, compare_designs, display_le.
  case_bool_decide; lia.
Qed.

Lemma display_le_total a b : display_le a b ∨ display_le b a.
Proof. unfold display_le. lia. Qed.

Lemma display_le_trans a b c : display_le a b → display_le b c → display_le a c.
Proof. unfold display_le. lia. Qed.

Lemma sort_designs_sorted ds :
  StronglySorted display_le (sort compare_designs ds).
Proof.
  eapply strongly_sorted_mono; last apply sort_sorted.
  - intros a b. apply compare_designs_le.
  - intros a b. rewrite !compare_designs_le. apply display_le_total.
  - intros a b c. rewrite !compare_designs_le. apply display_le_trans.
Qed.

Lemma sort_designs_id ds :
  Sorted display_le ds → sort compare_designs ds = ds.
Proof.
  intros Hs. apply sort_sorted_id.
  eapply sorted_mono; [|done]. intros a b. apply compare_designs_le.
Qed.

Lemma sort_designs_Some ds :
  sort_designs (Some <$> ds) = Some (Some <$> sort compare_designs ds).
Proof.
  unfold sort_designs. destruct ds as [|a [|b ds]]; [done..|].
  change (Some a :: Some b :: (Some <$> ds)) with (Some <$> a :: b :: ds).
  by rewrite records_Some.
Qed.

(** C7, as the code has it. GET /api/designs sends the designs in ascending
    order of position, ties by ascending creation time, where a record
    without a position counts as position 10^12 (not as infinity): it comes
    after every record whose position is below 10^12. The file is not
    written. *)
Theorem get_designs_display_order (data : Doc.t) (ds : list Design.t) :
  Doc.designs data = Some (Some <$> ds) →
  ∃ sorted,
    get_designs data = (Sent (set_designs data (Some <$> sorted)), data)
    ∧ sorted ≡ₚ ds
    ∧ StronglySorted display_le sorted
    ∧ (∀ l1 a l2 b p,
         sorted = l1 ++ a :: l2 → b ∈ l2 →
         Design.position a = None → Design.position b = Some p →
         sentinel ≤ p).
Proof.
  intros Hds. exists (sort compare_designs ds).
  pose proof (sort_designs_sorted ds) as Hsorted.
  split_and!; [|apply sort_perm|done|].
  - unfold get_designs. by rewrite Hds, sort_designs_Some.
  - intros l1 a l2 b p Heq Hb Ha Hp. rewrite Heq in Hsorted.
    apply StronglySorted_app in Hsorted as (_ & _ & Hsorted).
    apply StronglySorted_inv in Hsorted as [_ Hall].
    rewrite Forall_forall in Hall. specialize (Hall b Hb).
    unfold display_le in Hall. rewrite Ha, Hp in Hall. simpl in Hall. lia.
Qed.

Lemma get_designs_display_order_witness :
  ∃ sorted,
    get_designs (catalogue [design "A" None (Some 5); design "B" (Some 2) (Some 7);
                            design "C" (Some 1) (Some 9)])
    = (Sent (set_designs
               (catalogue [design "A" None (Some 5); design "B" (Some 2) (Some 7);
                           design "C" (Some 1) (Some 9)])
               (Some <$> sorted)),
       catalogue [design "A" None (Some 5); design "B" (Some 2) (Some 7);
                  design "C" (Some 1) (Some 9)])
    ∧ sorted ≡ₚ [design "A" None (Some 5); design "B" (Some 2) (Some 7);
                 design "C" (Some 1) (Some 9)]
    ∧ StronglySorted display_le sorted
    ∧ (∀ l1 a l2 b p,
         sorted = l1 ++ a :: l2 → b ∈ l2 →
         Design.position a = None → Design.position b = Some p →
         sentinel ≤ p).
Proof. apply get_designs_display_order. reflexivity. Defined.

Example get_designs_example :
  (get_designs (catalogue [design "A" None (Some 5); design "B" (Some 2) (Some 7);
                           design "C" (Some 1) (Some 9); design "D" None None])).1
  = Sent (catalogue [design "C" (Some 1) (Some 9); design "B" (Some 2) (Some 7);
                     design "D" None None; design "A" None (Some 5)]).
Proof. vm_compute. reflexivity. Qed.

(** C7, as stated, fails: a record without a position is sent before a
    record whose position is 2 * 10^12. *)
Lemma get_designs_infinity_counterexample :
  get_designs (catalogue [design "A" None (Some 1);
                          design "B" (Some 2000000000000) (Some 2)])
  = (Sent (catalogue [design "A" None (Some 1);
                      design "B" (Some 2000000000000) (Some 2)]),
     catalogue [design "A" None (Some 1);
                design "B" (Some 2000000000000) (Some 2)])
  ∧ ¬ infinity_le (design "A" None (Some 1))
        (design "B" (Some 2000000000000) (Some 2)).
Proof. split; [vm_compute; reflexivity|]. unfold infinity_le. simpl. tauto. Qed.

(** ** The map from ids to records *)

Lemma byId_fold_notin (m : gmap string Design.t) ds id :
  id ∉ Design.id <$> ds →
  foldl (λ m d, <[Design.id d := d]> m) m ds !! id = m !! id.
Proof.
  revert m. induction ds as [|x r IH]; intros m Hid; simpl; [done|].
  rewrite fmap_cons, not_elem_of_cons in Hid. destruct Hid as [Hx Hr].
  rewrite IH by done. by rewrite lookup_insert_ne.
Qed.

Lemma byId_fold_elem (m : gmap string Design.t) ds id d :
  foldl (λ m d, <[Design.id d := d]> m) m ds !! id = Some d →
  (d ∈ ds ∧ Design.id d = id) ∨ m !! id = Some d.
Proof.
  revert m. induction ds as [|x r IH]; intros m; simpl; [auto|].
  intros [[Hd Hid]|Hm]%IH.
  - left. split; [by right|done].
  - destruct (decide (Design.id x = id)) as [<-|Hne].
    + rewrite lookup_insert_eq in Hm. injection Hm as <-. left. split; [left|done].
    + rewrite lookup_insert_ne in Hm by done. by right.
Qed.

Lemma byId_of_elem ds id d :
  byId_of ds !! id = Some d → d ∈ ds ∧ Design.id d = id.
Proof. by intros [?|?]%byId_fold_elem. Qed.

Lemma byId_of_is_Some ds id :
  id ∈ Design.id <$> ds → is_Some (byId_of ds !! id).
Proof.
  unfold byId_of. generalize (∅ : gmap string Design.t).
  induction ds as [|x r IH]; intros m Hid; simpl.
  { by apply elem_of_nil in Hid. }
  destruct (decide (id ∈ Design.id <$> r)) as [Hr|Hr]; [by apply IH|].
  rewrite fmap_cons in Hid. apply elem_of_cons in Hid as [->|?]; [|done].
  rewrite byId_fold_notin by done. by rewrite lookup_insert_eq.
Qed.

Lemma byId_of_unique ds d :
  NoDup (Design.id <$> ds) → d ∈ ds → byId_of ds !! Design.id d = Some d.
Proof.
  intros Hnd Hd.
  destruct (byId_of_is_Some ds (Design.id d)) as [d' Hd'].
  { by apply list_elem_of_fmap_2. }
  rewrite Hd'. f_equal.
  apply byId_of_elem in Hd' as [Hin Hid].
  apply list_elem_of_lookup in Hin as [i Hi], Hd as [j Hj].
  assert (i = j) as ->; [|congruence].
  eapply NoDup_lookup; [done| |]; rewrite list_lookup_fmap.
  - by rewrite Hi.
  - rewrite Hj. simpl. by rewrite Hid.
Qed.

(** ** Assigning positions *)

Lemma assign_positions_notin i newIds (byId : gmap string Design.t) id :
  Some id ∉ newIds → assign_positions i newIds byId !! id = byId !! id.
Proof.
  revert i byId. induction newIds as [|oid rest IH]; intros i byId Hid; simpl.
  { done. }
  apply not_elem_of_cons in Hid as [Hoid Hrest]. rewrite IH by done.
  destruct oid as [id'|]; [|done].
  destruct (byId !! id') eqn:Hd; [|done].
  rewrite lookup_insert_ne; congruence.
Qed.

(** When no id occurs twice, the record of the id at index [k] ends up with
    position [k + 1]. *)
Lemma assign_positions_lookup i ids (byId : gmap string Design.t) k id :
  NoDup ids → ids !! k = Some id →
  assign_positions i (Some <$> ids) byId !! id
  = (λ d, set_position d (Z.of_nat (i + k) + 1)) <$> byId !! id.
Proof.
  revert i byId k. induction ids as [|x rest IH]; intros i byId k Hnd Hk.
  { done. }
  apply NoDup_cons in Hnd as [Hx Hrest]. destruct k as [|k]; simpl in *.
  - injection Hk as ->.
    rewrite assign_positions_notin.
    2:{ intros (y & [= <-] & Hy)%list_elem_of_fmap. done. }
    rewrite Nat.add_0_r.
    destruct (byId !! id) eqn:Hd; simpl; [|by rewrite Hd].
    by rewrite lookup_insert_eq.
  - assert (x ≠ id) as Hne.
    { intros ->. apply Hx. by eapply list_elem_of_lookup_2. }
    rewrite (IH (S i) _ k) by done.
    replace (S i + k)%nat with (i + S k)%nat by lia. f_equal.
    destruct (byId !! x); [|done]. by rewrite lookup_insert_ne.
Qed.

(** The records the handler stores for a duplicate-free sequence of ids
    all of which are known. *)
Lemma collect_assigned (byId : gmap string Design.t) ids :
  NoDup ids → Forall (λ id, is_Some (byId !! id)) ids →
  ∃ recs,
    collect (assign_positions 0 (Some <$> ids) byId) (Some <$> ids)
    = Some <$> recs
    ∧ length recs = length ids
    ∧ ∀ i id, ids !! i = Some id →
        ∃ d, byId !! id = Some d
             ∧ recs !! i = Some (set_position d (Z.of_nat i + 1)).
Proof.
  intros Hnd Hall.
  assert (∀ i id, ids !! i = Some id →
    ∃ d, byId !! id = Some d
         ∧ collect (assign_positions 0 (Some <$> ids) byId) (Some <$> ids) !! i
           = Some (Some (set_position d (Z.of_nat i + 1)))) as Hlook.
  { intros i id Hi.
    rewrite Forall_forall in Hall.
    destruct (Hall id) as [d Hd]; [by eapply list_elem_of_lookup_2|].
    exists d. split; [done|]. unfold collect.
    rewrite !list_lookup_fmap, Hi. simpl.
    by rewrite (assign_positions_lookup 0 ids byId i id), Hd. }
  set (out := collect _ _) in *.
  assert (length out = length ids) as Hlen.
  { unfold out, collect. by rewrite !length_fmap. }
  assert (Forall is_Some out) as Hsome.
  { apply Forall_lookup. intros i o Ho.
    destruct (ids !! i) as [id|] eqn:Hi.
    - destruct (Hlook i id Hi) as (d & _ & Hd). rewrite Ho in Hd.
      injection Hd as ->. by eexists.
    - apply lookup_ge_None in Hi. apply lookup_lt_Some in Ho. lia. }
  destruct (mapM_is_Some_2 (λ o : option Design.t, o) out) as [recs Hrecs].
  { done. }
  apply (mapM_fmap_Some_inv _ Some) in Hrecs; [|by intros [] ? [= ->]].
  exists recs. split; [done|]. split.
  { rewrite <-Hlen, <-Hrecs. by rewrite length_fmap. }
  intros i id Hi. destruct (Hlook i id Hi) as (d & Hd & Ho).
  exists d. split; [done|].
  rewrite <-Hrecs, list_lookup_fmap in Ho.
  destruct (recs !! i); simpl in Ho; congruence.
Qed.

(** ** PUT /api/designs/order, every theme *)

Lemma sorted_by_lookup {A} (R : relation A) l :
  (∀ i a b, l !! i = Some a → l !! S i = Some b → R a b) → Sorted R l.
Proof.
  induction l as [|x l IH]; intros Hl; constructor.
  - apply IH. intros i a b Ha Hb. by apply (Hl (S i)).
  - destruct l as [|y l]; constructor. by apply (Hl 0%nat).
Qed.

Lemma sort_designs_ids ds id :
  id ∈ Design.id <$> sort compare_designs ds ↔ id ∈ Design.id <$> ds.
Proof. by rewrite sort_perm. Qed.

(** The test of the global reorder, for a sequence without repetition: it
    passes exactly when the sequence has the ids of the catalogue, all of
    them and no other. *)
Lemma new_ids_all theme order current :
  theme_scoped theme = false → NoDup order →
  ((∀ id, id ∈ order ↔ id ∈ Design.id <$> current) →
   new_ids theme order current = Sent (Some <$> order))
  ∧ (¬ (∀ id, id ∈ order ↔ id ∈ Design.id <$> current) →
     new_ids theme order current
     = Failed 400 "Global reorder must include all existing design IDs.").
Proof.
  intros Hscope Hnd. unfold new_ids. rewrite Hscope.
  set (allIds := list_to_set (Design.id <$> current) : gset string).
  assert (∀ id, id ∈ allIds ↔ id ∈ Design.id <$> current) as Hall.
  { intros id. unfold allIds. by rewrite elem_of_list_to_set. }
  split; intros Hiff.
  - assert (allIds = list_to_set order) as Hset.
    { apply set_eq. intros id. by rewrite Hall, elem_of_list_to_set, Hiff. }
    rewrite orb_false_intro; [done| |].
    + apply bool_decide_eq_false_2. rewrite Hset, size_list_to_set by done. lia.
    + apply bool_decide_eq_false_2. rewrite Exists_exists.
      intros (id & Hid & Hnot). apply Hnot, Hall, Hiff, Hid.
  - destruct (_ || _) eqn:Htest; [done|]. destruct Hiff.
    apply orb_false_elim in Htest as [Hlen Hex].
    apply bool_decide_eq_false_1 in Hlen, Hex.
    assert (length order = size allIds) as Hlen' by lia.
    assert (∀ id, id ∈ order → id ∈ allIds) as Hsub.
    { intros id Hid. destruct (decide (id ∈ allIds)); [done|].
      destruct Hex. apply Exists_exists. eauto. }
    assert (order ≡ₚ elements allIds) as Hperm.
    { apply submseteq_length_Permutation.
      - apply NoDup_submseteq; [done|]. intros id Hid.
        by apply elem_of_elements, Hsub.
      - unfold size, set_size in Hlen'. simpl in Hlen'. lia. }
    intros id. by rewrite Hperm, elem_of_elements, Hall.
Qed.

(** C2, as the code has it. For a supplied sequence that is not empty and
    has no repeated id, the reorder of scope "all" succeeds exactly when
    the sequence has the ids of the catalogue, all of them and no other.
    It then stores the records in the order of the sequence with positions
    1, 2, ..., so that the display order is that sequence; otherwise it
    answers 400 and the catalogue is as before. *)
Theorem put_order_all (data : Doc.t) (ds : list Design.t)
    (theme : option string) (order : list string) :
  Doc.designs data = Some (Some <$> ds) →
  theme_scoped theme = false →
  order ≠ [] →
  NoDup order →
  ((∀ id, id ∈ order ↔ id ∈ Design.id <$> ds) →
   ∃ recs,
     put_order data theme (Some order)
     = (Sent (Some <$> recs), set_designs data (Some <$> recs))
     ∧ Design.id <$> recs = order
     ∧ (∀ i id, order !! i = Some id →
          ∃ d, byId_of ds !! id = Some d
               ∧ recs !! i = Some (set_position d (Z.of_nat i + 1)))
     ∧ get_designs (set_designs data (Some <$> recs))
       = (Sent (set_designs data (Some <$> recs)),
          set_designs data (Some <$> recs)))
  ∧ (¬ (∀ id, id ∈ order ↔ id ∈ Design.id <$> ds) →
     put_order data theme (Some order)
     = (Failed 400 "Global reorder must include all existing design IDs.",
        data)).
Proof.
  intros Hds Hscope Hne Hnd.
  assert (put_order data theme (Some order) =
    match new_ids theme order (sort compare_designs ds) with
    | Failed status error => (Failed status error, data)
    | Sent newIds =>
        let out := collect (assign_positions 0 newIds (byId_of ds)) newIds in
        (Sent out, set_designs data out)
    end) as ->.
  { unfold put_order, designs_of. rewrite Hds. simpl. rewrite records_Some.
    by destruct order. }
  destruct (new_ids_all theme order (sort compare_designs ds))
    as [Hpass Hfail]; [done..|].
  split.
  - intros Hiff. rewrite Hpass.
    2:{ intros id. by rewrite sort_designs_ids. }
    destruct (collect_assigned (byId_of ds) order) as (recs & Hout & Hlen & Hrecs).
    { done. }
    { apply Forall_forall. intros id Hid. by apply byId_of_is_Some, Hiff. }
    exists recs. simpl. rewrite Hout. split_and!; [done| |done|].
    + apply list_eq. intros i. rewrite list_lookup_fmap.
      destruct (order !! i) as [id|] eqn:Hi.
      * destruct (Hrecs i id Hi) as (d & Hd & ->). simpl.
        by apply byId_of_elem in Hd as [_ ->].
      * apply lookup_ge_None in Hi.
        rewrite lookup_ge_None_2; [done|lia].
    + unfold get_designs. simpl. rewrite sort_designs_Some.
      rewrite sort_designs_id; [done|].
      apply sorted_by_lookup. intros i a b Ha Hb.
      destruct (order !! i) as [ia|] eqn:Hia.
      2:{ apply lookup_ge_None in Hia. apply lookup_lt_Some in Ha. lia. }
      destruct (order !! S i) as [ib|] eqn:Hib.
      2:{ apply lookup_ge_None in Hib. apply lookup_lt_Some in Hb. lia. }
      destruct (Hrecs i ia Hia) as (da & _ & Ha').
      destruct (Hrecs (S i) ib Hib) as (db & _ & Hb').
      rewrite Ha in Ha'. rewrite Hb in Hb'.
      injection Ha' as ->. injection Hb' as ->.
      unfold display_le. simpl. lia.
  - intros Hiff. rewrite Hfail; [done|].
    intros Hiff'. apply Hiff. intros id. by rewrite <-sort_designs_ids.
Qed.

Lemma put_order_all_witness :
  ∃ recs,
    put_order (catalogue ab) (Some "all") (Some ["B"; "A"])
    = (Sent (Some <$> recs), set_designs (catalogue ab) (Some <$> recs))
    ∧ Design.id <$> recs = ["B"; "A"]
    ∧ (∀ i id, ["B"; "A"] !! i = Some id →
         ∃ d, byId_of ab !! id = Some d
              ∧ recs !! i = Some (set_position d (Z.of_nat i + 1)))
    ∧ get_designs (set_designs (catalogue ab) (Some <$> recs))
      = (Sent (set_designs (catalogue ab) (Some <$> recs)),
         set_designs (catalogue ab) (Some <$> recs)).
Proof.
  apply (put_order_all (catalogue ab) ab (Some "all") ["B"; "A"]).
  - reflexivity.
  - reflexivity.
  - discriminate.
  - apply (bool_decide_unpack _). vm_compute. exact I.
  - intros id. unfold ab. cbn. rewrite !elem_of_cons. tauto.
Defined.

Example put_order_all_example :
  (put_order (catalogue [design "A" None (Some 1); design "B" None (Some 2)])
     (Some "all") (Some ["B"; "A"])).2
  = catalogue [design "B" (Some 1) (Some 2); design "A" (Some 2) (Some 1)].
Proof. vm_compute. reflexivity. Qed.

(** C2, as stated, fails: the empty sequence is a permutation of the ids
    of the empty catalogue, and is refused. *)
Lemma put_order_all_empty_counterexample :
  [] ≡ₚ Design.id <$> []
  ∧ put_order (catalogue []) (Some "all") (Some [])
    = (Failed 400 "Provide 'order' as a non-empty array of IDs.", catalogue []).
Proof. split; reflexivity. Qed.

(** C9. A body whose [order] is not an array, or is the empty array, is
    answered with 400 and the catalogue is left as it is, whatever the
    theme and the catalogue: also an empty catalogue, of whose ids the
    empty array is the full sequence. *)
Theorem put_order_empty (data : Doc.t) (theme : option string) :
  put_order data theme None
  = (Failed 400 "Provide 'order' as a non-empty array of IDs.", data)
  ∧ put_order data theme (Some [])
    = (Failed 400 "Provide 'order' as a non-empty array of IDs.", data)
  ∧ put_order (catalogue []) theme (Some [])
    = (Failed 400 "Provide 'order' as a non-empty array of IDs.", catalogue []).
Proof. done. Qed.

(** ** PUT /api/designs/order, one theme *)

Lemma filter_ids (set : gset string) (ds : list Design.t) :
  Design.id <$> filter (λ d, Design.id d ∈ set) ds
  = filter (λ id, id ∈ set) (Design.id <$> ds).
Proof.
  induction ds as [|d ds IH]; [done|].
  rewrite fmap_cons, !filter_cons.
  destruct (decide (Design.id d ∈ set)); [rewrite fmap_cons|]; by rewrite IH.
Qed.

(** The walk over the current order, as long as the iterator has an id for
    every member it meets: records outside the set keep their slots, the
    slots of the members take the ids of the iterator in its order, and
    nothing else changes. *)
Lemma substitute_members (set : gset string) it current :
  (length (filter (λ d, Design.id d ∈ set) current) ≤ length it)%nat →
  ∃ newIds,
    substitute set it current = Some <$> newIds
    ∧ length newIds = length current
    ∧ (∀ i d, current !! i = Some d → Design.id d ∉ set →
         newIds !! i = Some (Design.id d))
    ∧ snd <$> filter (λ p : string * string, p.1 ∈ set)
                (zip (Design.id <$> current) newIds)
      = take (length (filter (λ d, Design.id d ∈ set) current)) it
    ∧ newIds ≡ₚ
        filter (λ id, id ∉ set) (Design.id <$> current)
        ++ take (length (filter (λ d, Design.id d ∈ set) current)) it.
Proof.
  revert it. induction current as [|d c IH]; intros it Hlen.
  { exists []. by rewrite take_0. }
  cbn [substitute]. rewrite fmap_cons, !filter_cons in *.
  destruct (decide (Design.id d ∈ set)) as [Hd|Hd].
  - rewrite bool_decide_eq_true_2, decide_False by auto.
    destruct it as [|r it]; cbn [length] in *; [lia|].
    destruct (IH it) as (l & Hsub & Hl & Hkeep & Hmem & Hperm); [lia|].
    exists (r :: l). cbn [head tail zip zip_with take].
    rewrite filter_cons_True by done.
    split_and!.
    + by rewrite Hsub.
    + cbn. by rewrite Hl.
    + intros [|i] d'; cbn; [by intros [= ->]|]. apply Hkeep.
    + rewrite fmap_cons. by rewrite Hmem.
    + rewrite Hperm. apply Permutation_middle.
  - rewrite bool_decide_eq_false_2, decide_True by done.
    destruct (IH it) as (l & Hsub & Hl & Hkeep & Hmem & Hperm); [done|].
    exists (Design.id d :: l). cbn [zip zip_with].
    rewrite filter_cons_False by done.
    split_and!.
    + by rewrite Hsub.
    + cbn. by rewrite Hl.
    + intros [|i] d'; cbn; [by intros [= ->]|]. apply Hkeep.
    + done.
    + by rewrite Hperm.
Qed.

(** C3, as the code has it. In a catalogue with one record per id whose
    designs are in display order, for a supplied sequence that is not
    empty, has no repeated id and only ids of the catalogue, the reorder of
    a theme keeps every design that is not in the sequence in its slot,
    fills the slots of the designs that are in it with the ids of the
    sequence in their order, loses and repeats no id, and stores the record
    of the id at index [i] with position [i + 1]. *)
Theorem put_order_theme (data : Doc.t) (ds : list Design.t)
    (theme : option string) (order : list string) :
  Doc.designs data = Some (Some <$> ds) →
  theme_scoped theme = true →
  NoDup (Design.id <$> ds) →
  Sorted display_le ds →
  order ≠ [] →
  NoDup order →
  (∀ id, id ∈ order → id ∈ Design.id <$> ds) →
  ∃ newIds recs,
    put_order data theme (Some order)
    = (Sent (Some <$> recs), set_designs data (Some <$> recs))
    ∧ length newIds = length ds
    ∧ (∀ i d, ds !! i = Some d → Design.id d ∉ order →
         newIds !! i = Some (Design.id d))
    ∧ snd <$> filter (λ p : string * string, p.1 ∈ order)
                (zip (Design.id <$> ds) newIds) = order
    ∧ newIds ≡ₚ Design.id <$> ds
    ∧ length recs = length newIds
    ∧ (∀ i id, newIds !! i = Some id →
         ∃ d, d ∈ ds ∧ Design.id d = id
              ∧ recs !! i = Some (set_position d (Z.of_nat i + 1))).
Proof.
  intros Hds Hscope Hnd Hsorted Hne Hord Hsub.
  set (set := list_to_set order : gset string).
  assert (∀ id, id ∈ set ↔ id ∈ order) as Hset.
  { intros id. unfold set. by rewrite elem_of_list_to_set. }
  assert (filter (λ id, id ∈ set) (Design.id <$> ds) ≡ₚ order) as Hmembers.
  { apply NoDup_Permutation; [by apply NoDup_filter|done|].
    intros id. rewrite list_elem_of_filter, Hset. split; [by intros [? _]|].
    auto. }
  assert (length (filter (λ d, Design.id d ∈ set) ds) = length order) as Hk.
  { transitivity (length (Design.id <$> filter (λ d, Design.id d ∈ set) ds)).
    - by rewrite length_fmap.
    - by rewrite filter_ids, Hmembers. }
  destruct (substitute_members set order ds)
    as (newIds & Hsubst & Hlen & Hkeep & Hslots & Hperm); [lia|].
  rewrite Hk, take_ge in Hslots, Hperm by lia.
  assert (newIds ≡ₚ Design.id <$> ds) as Hperm'.
  { rewrite Hperm, <-Hmembers, (comm (++)).
    apply (filter_app_complement (λ id, id ∈ set)). }
  destruct (collect_assigned (byId_of ds) newIds)
    as (recs & Hout & Hrecs_len & Hrecs).
  { by rewrite Hperm'. }
  { apply Forall_forall. intros id Hid.
    apply byId_of_is_Some. by rewrite <-Hperm'. }
  exists newIds, recs. split_and!.
  - unfold put_order, designs_of. rewrite Hds. simpl. rewrite records_Some.
    destruct order as [|o order']; [done|].
    unfold new_ids. rewrite Hscope, sort_designs_id by done.
    fold set. rewrite Hsubst. simpl. by rewrite Hout.
  - done.
  - intros i d Hi Hd. apply Hkeep; [done|]. by rewrite Hset.
  - etrans; [|exact Hslots]. f_equal. apply list_filter_iff. intros p.
    symmetry. apply Hset.
  - done.
  - done.
  - intros i id Hi. destruct (Hrecs i id Hi) as (d & Hd & Hr).
    apply byId_of_elem in Hd as [Hin Hid]. eauto.
Qed.

Lemma put_order_theme_witness :
  ∃ newIds recs,
    put_order (catalogue abcd) (Some "neo") (Some ["D"; "B"])
    = (Sent (Some <$> recs), set_designs (catalogue abcd) (Some <$> recs))
    ∧ length newIds = length abcd
    ∧ (∀ i d, abcd !! i = Some d → Design.id d ∉ ["D"; "B"] →
         newIds !! i = Some (Design.id d))
    ∧ snd <$> filter (λ p : string * string, p.1 ∈ ["D"; "B"])
                (zip (Design.id <$> abcd) newIds) = ["D"; "B"]
    ∧ newIds ≡ₚ Design.id <$> abcd
    ∧ length recs = length newIds
    ∧ (∀ i id, newIds !! i = Some id →
         ∃ d, d ∈ abcd ∧ Design.id d = id
              ∧ recs !! i = Some (set_position d (Z.of_nat i + 1))).
Proof.
  apply (put_order_theme (catalogue abcd) abcd (Some "neo") ["D"; "B"]).
  - reflexivity.
  - reflexivity.
  - apply (bool_decide_unpack _). vm_compute. exact I.
  - repeat constructor; unfold display_le; simpl; lia.
  - discriminate.
  - apply (bool_decide_unpack _). vm_compute. exact I.
  - intros id. unfold abcd. cbn. rewrite !elem_of_cons. tauto.
Defined.

(** The example of the specification: the order A, B, C, D with D, B
    supplied becomes A, D, C, B. *)
Example put_order_theme_example :
  (put_order
     (catalogue [design "A" (Some 1) None; design "B" (Some 2) None;
                 design "C" (Some 3) None; design "D" (Some 4) None])
     (Some "neo") (Some ["D"; "B"])).2
  = catalogue [design "A" (Some 1) None; design "D" (Some 2) None;
               design "C" (Some 3) None; design "B" (Some 4) None].
Proof. vm_compute. reflexivity. Qed.

(** C3, as stated, fails: the empty sequence has only ids of the
    catalogue, and the reorder is refused instead of assigning positions. *)
Lemma put_order_theme_empty_counterexample :
  Sorted display_le [design "A" None (Some 1); design "B" None (Some 2)]
  ∧ (∀ id : string, id ∈ [] →
       id ∈ Design.id <$> [design "A" None (Some 1); design "B" None (Some 2)])
  ∧ put_order (catalogue [design "A" None (Some 1); design "B" None (Some 2)])
      (Some "neo") (Some [])
    = (Failed 400 "Provide 'order' as a non-empty array of IDs.",
       catalogue [design "A" None (Some 1); design "B" None (Some 2)]).
Proof.
  split_and!; [|by intros id ?%elem_of_nil|reflexivity].
  repeat constructor; unfold display_le; simpl; lia.
Qed.

(** A sequence that repeats an id: the record of B is stored twice, with
    the position of its last slot, and the record of D is dropped. *)
Example put_order_theme_repeated :
  (put_order
     (catalogue [design "A" (Some 1) None; design "B" (Some 2) None;
                 design "C" (Some 3) None; design "D" (Some 4) None])
     (Some "neo") (Some ["B"; "B"; "D"])).2
  = catalogue [design "A" (Some 1) None; design "B" (Some 4) None;
               design "C" (Some 3) None; design "B" (Some 4) None].
Proof. vm_compute. reflexivity. Qed.

(** An id that no record has: the slot is stored as [null]. *)
Example put_order_theme_unknown :
  Doc.designs
    (put_order
       (catalogue [design "A" (Some 1) None; design "B" (Some 2) None])
       (Some "neo") (Some ["X"; "B"])).2
  = Some [Some (design "A" (Some 1) None); None].
Proof. vm_compute. reflexivity. Qed.

(** ** One record per id *)

(** C1 fails on the code. The reorder of scope "all" accepts the sequence
    A, A for the catalogue A, B (two ids, both known): it stores the record
    of A twice and drops the record of B. *)
Theorem put_order_all_repeated :
  unique_ids (catalogue [design "A" None (Some 1); design "B" None (Some 2)])
  ∧ put_order (catalogue [design "A" None (Some 1); design "B" None (Some 2)])
      (Some "all") (Some ["A"; "A"])
    = (Sent [Some (design "A" (Some 2) (Some 1)); Some (design "A" (Some 2) (Some 1))],
       catalogue [design "A" (Some 2) (Some 1); design "A" (Some 2) (Some 1)])
  ∧ ¬ unique_ids
        (catalogue [design "A" (Some 2) (Some 1); design "A" (Some 2) (Some 1)]).
Proof.
  split_and!.
  - eexists. split; [reflexivity|].
    apply (bool_decide_unpack _). vm_compute. exact I.
  - vm_compute. reflexivity.
  - intros (ds & Hds & Hnd). unfold designs_of in Hds. simpl in Hds.
    destruct ds as [|a [|b [|c ds]]]; try discriminate.
    injection Hds as <- <-. simpl in Hnd.
    apply NoDup_cons in Hnd as [Hin _]. apply Hin. left.
Qed.

(** ** DELETE /api/designs/:id *)

Section DeleteProperties.
Context `{JsString}.

(** C10, as the code has it. The handler matches the stored ids against
    [slug] of the path parameter. In a catalogue whose entries are all
    records (none is [null]), a raw id whose slug is the id of a stored
    record (the id of a stored record is not empty) removes every record
    of that id, keeps the others in their order, and reports
    [removed: true]; a raw id whose slug is empty is answered with 400 and
    the catalogue is as before, whatever its entries. *)
Theorem delete_design_slug (data : Doc.t) (raw : string) :
  (slug raw = "" → delete_design data raw = (Failed 400 "Missing id", data))
  ∧ (∀ ds d,
       Doc.designs data = Some (Some <$> ds) →
       d ∈ ds → slug raw = Design.id d → Design.id d ≠ "" →
       delete_design data raw
       = (Sent (Some <$> filter (λ x, Design.id x ≠ Design.id d) ds, true),
          set_designs data
            (Some <$> filter (λ x, Design.id x ≠ Design.id d) ds))
       ∧ (d ∉ filter (λ x, Design.id x ≠ Design.id d) ds)
       ∧ (∀ x, x ∈ ds → Design.id x ≠ Design.id d →
            x ∈ filter (λ x, Design.id x ≠ Design.id d) ds)).
Proof.
  split.
  - intros Hraw. unfold delete_design. by rewrite Hraw.
  - intros ds d Hds Hd Hraw Hid. split_and!.
    + unfold delete_design, designs_of. rewrite Hraw, Hds. simpl.
      rewrite bool_decide_eq_false_2, records_Some by done.
      rewrite bool_decide_eq_true_2; [done|].
      apply Exists_exists. eauto.
    + rewrite list_elem_of_filter. by intros [? _].
    + intros x Hx Hne. by apply list_elem_of_filter.
Qed.

End DeleteProperties.

Lemma delete_design_slug_witness :
  delete_design (catalogue tiles) " -- "
  = (Failed 400 "Missing id", catalogue tiles)
  ∧ delete_design (catalogue tiles) " tile-1 "
    = (Sent ([Some (design "TILE_2" None (Some 2))], true),
       catalogue [design "TILE_2" None (Some 2)]).
Proof.
  split.
  - apply (proj1 (delete_design_slug (catalogue tiles) " -- ")). reflexivity.
  - apply (proj2 (delete_design_slug (catalogue tiles) " tile-1 ") tiles
             (design "TILE_1" None (Some 1))).
    + reflexivity.
    + left.
    + reflexivity.
    + discriminate.
Defined.

(** C10, as stated, fails: the server reaches a catalogue with a [null]
    entry (two uploads, then a reorder within a theme whose first id is
    unknown), and there the delete of a stored record is answered with
    500 and removes nothing. *)
Lemma delete_design_null_counterexample :
  ∃ b,
    reachable
      (put_order (post_upload (post_upload initial upload_a 1).2 upload_b 2).2
         (Some "neo") (Some ["X"; "A"])).2
    ∧ designs_of
        (put_order (post_upload (post_upload initial upload_a 1).2 upload_b 2).2
           (Some "neo") (Some ["X"; "A"])).2
      = [None; Some b]
    ∧ slug " b " = Design.id b
    ∧ delete_design
        (put_order (post_upload (post_upload initial upload_a 1).2 upload_b 2).2
           (Some "neo") (Some ["X"; "A"])).2 " b "
      = (Failed 500 "Failed to delete design",
         (put_order (post_upload (post_upload initial upload_a 1).2 upload_b 2).2
            (Some "neo") (Some ["X"; "A"])).2).
Proof.
  eexists. split_and!.
  - eapply rtc_r; [eapply rtc_r; [apply rtc_once|]|].
    + apply (step_upload initial upload_a 1).
    + apply step_upload.
    + apply step_order.
  - vm_compute. reflexivity.
  - vm_compute. reflexivity.
  - vm_compute. reflexivity.
Qed.

(** ** POST /api/upload: the upsert *)

Lemma findIndex_Some id ds i :
  findIndex id ds = Some (Some i) →
  ∃ old, ds !! i = Some (Some old) ∧ Design.id old = id.
Proof.
  revert i. induction ds as [|[d|] ds IH]; intros i; simpl; [done| |done].
  case_bool_decide as Hd; [intros [= <-]; eauto|].
  destruct (findIndex id ds) as [[j|]|]; intros [= <-]. by apply IH.
Qed.

Lemma findIndex_push id ds d :
  findIndex id ds = Some None → Design.id d = id →
  findIndex id (ds ++ [Some d]) = Some (Some (length ds)).
Proof.
  intros Hds Hd. induction ds as [|[x|] ds IH]; simpl in *.
  - by rewrite bool_decide_eq_true_2.
  - case_bool_decide; [done|].
    destruct (findIndex id ds) as [[j|]|]; [done| |done]. by rewrite IH.
  - done.
Qed.

Lemma findIndex_replace id ds i d :
  findIndex id ds = Some (Some i) → Design.id d = id →
  findIndex id (<[i := Some d]> ds) = Some (Some i).
Proof.
  intros Hds Hd. revert i Hds.
  induction ds as [|[x|] ds IH]; intros i; simpl; [done| |done].
  case_bool_decide as Hx.
  - intros [= <-]. simpl. by rewrite bool_decide_eq_true_2.
  - destruct (findIndex id ds) as [[j|]|] eqn:Hj; intros [= <-]. simpl.
    rewrite bool_decide_eq_false_2 by done. by rewrite (IH j).
Qed.

Lemma designs_of_set data ds : designs_of (set_designs data ds) = ds.
Proof. done. Qed.

(** What an upsert leaves under the id, when the payload is of that id. *)
Lemma upsert_record data id (p : option Design.t → Design.t) doc :
  (∀ old, Design.id (p old) = id) →
  upsert data id p = Sent doc →
  record_of id doc
  = Some match record_of id data with
         | Some old => spread old (p (Some old))
         | None => p None
         end.
Proof.
  intros Hp. unfold upsert, record_of.
  destruct (findIndex id (designs_of data)) as [[i|]|] eqn:Hi; [| |done].
  - destruct (findIndex_Some _ _ _ Hi) as (old & Hold & Hid).
    rewrite Hold. simpl. intros [= <-]. rewrite designs_of_set.
    rewrite findIndex_replace; [|done|apply Hp].
    rewrite list_lookup_insert_eq; [done|]. by eapply lookup_lt_Some.
  - intros [= <-]. rewrite designs_of_set, findIndex_push; [|done|apply Hp].
    rewrite lookup_app_r by done. by rewrite Nat.sub_diag.
Qed.

Lemma upsert_Sent data id (p : option Design.t → Design.t) :
  findIndex id (designs_of data) ≠ None → ∃ doc, upsert data id p = Sent doc.
Proof.
  intros Hi. unfold upsert.
  destruct (findIndex id (designs_of data)) as [[i|]|] eqn:Hi'; [|eauto|done].
  destruct (findIndex_Some _ _ _ Hi') as (old & -> & _). eauto.
Qed.

Lemma record_of_seeded id data : record_of id (seeded data) = record_of id data.
Proof. done. Qed.

Section UploadProperties.
Context `{JsString}.

(** The payload against the specification of the upsert. *)
Lemma payload_spec id req now p :
  payload id req now = Sent p →
  carried id req now = Sent (p None)
  ∧ ∀ old, Design.id (p old) = id
           ∧ upsert_spec old (p None)
             = match old with Some o => spread o (p old) | None => p None end.
Proof.
  intros Hp. unfold carried. rewrite Hp. split; [done|].
  unfold payload in Hp. case_bool_decide.
  - destruct (checked _ "main" _ _); [|done].
    destruct (rename_variants _ _ _ _); [|done].
    destruct (checked _ "video" _ _); [|done].
    destruct (checked _ "preview" _ _); [|done].
    simpl in Hp. injection Hp as <-. by intros [o|].
  - injection Hp as <-. intros [o|]; [|done]. split; [done|].
    unfold upsert_spec, spread, flexible_payload. simpl.
    by rewrite (right_id_L ∅ (∪)).
Qed.

Lemma upload_Sent data req now doc :
  upload data req now = Sent doc →
  let id := slug (or_else (body_id req) "") in
  id ≠ ""
  ∧ ∃ p, payload id req now = Sent p ∧ upsert (seeded data) id p = Sent doc.
Proof.
  unfold upload. case_bool_decide; [done|].
  destruct (grouping_throws _); [done|].
  destruct (payload _ req now) as [p|] eqn:Hp; [|done]. simpl. eauto.
Qed.

Lemma upload_Sent_grouping data req now doc :
  upload data req now = Sent doc → grouping_throws (files req) = false.
Proof.
  unfold upload. case_bool_decide; [done|]. by destruct (grouping_throws _).
Qed.

(** The catalogue file after an upload that is sent is the document sent. *)
Lemma post_upload_Sent data req now doc store :
  post_upload data req now = (Sent doc, store) ↔
  upload data req now = Sent doc ∧ store = doc.
Proof.
  unfold post_upload. destruct (upload data req now) as [doc'|]; split.
  - by intros [= <- <-].
  - by intros [[= <-] ->].
  - done.
  - by intros [? _].
Qed.

(** After an upload that is sent, the record of the id is the upsert of
    what the request carries. *)
Lemma upload_record data req now doc :
  upload data req now = Sent doc →
  let id := slug (or_else (body_id req) "") in
  ∃ c, carried id req now = Sent c
       ∧ record_of id doc = Some (upsert_spec (record_of id data) c).
Proof.
  intros (Hid & p & Hp & Hup)%upload_Sent. simpl in *.
  destruct (payload_spec _ _ _ _ Hp) as [Hc Hspec].
  exists (p None). split; [done|].
  rewrite (upsert_record _ _ _ _ (λ old, proj1 (Hspec old)) Hup).
  rewrite record_of_seeded. f_equal.
  destruct (Hspec (record_of (slug (or_else (body_id req) "")) data)) as [_ ->].
  by destruct (record_of _ data).
Qed.

End UploadProperties.

Section UploadTwice.
Context `{JsString}.

Lemma carried_plain id req now c :
  carried id req now = Sent c →
  Design.id c = id
  ∧ Design.theme c = or_else (body_theme req) "default"
  ∧ Design.label c = or_else (body_label req) id
  ∧ Design.finish c = or_else (body_finish req) ""
  ∧ Design.faces c = body_faces req
  ∧ Design.updatedAt c = now
  ∧ Design.createdAt c = Some now.
Proof.
  unfold carried, payload. case_bool_decide as Htheme.
  - destruct (checked _ "main" _ _); [|done].
    destruct (rename_variants _ _ _ _); [|done].
    destruct (checked _ "video" _ _); [|done].
    destruct (checked _ "preview" _ _); [|done].
    simpl. intros [= <-]. by rewrite Htheme.
  - simpl. by intros [= <-].
Qed.

(** C4, as the code has it. After two uploads for one id that are both
    sent, the stored record of the id has: every asset field ([main],
    [variants], [video], [preview], [sizeText]) with the value of the last
    of the two requests that carries it, else the value stored before;
    [themeData], when the second request is of a flexible theme, with the
    keys of the second request over the keys stored by the first;
    [updatedAt] of the second call; [createdAt] of the first call when the
    id was not stored before, and as stored otherwise. The theme, label,
    finish and faces are those of the second request alone, with their
    defaults ("default", the id, the empty string, 0) when it does not
    carry them. *)
Theorem upload_twice (data : Doc.t) (req1 req2 : Request) (t1 t2 : Z)
    (doc1 doc2 store1 store2 : Doc.t) (id : string) :
  slug (or_else (body_id req1) "") = id →
  slug (or_else (body_id req2) "") = id →
  post_upload data req1 t1 = (Sent doc1, store1) →
  post_upload store1 req2 t2 = (Sent doc2, store2) →
  ∃ c1 c2 r1 r2,
    carried id req1 t1 = Sent c1
    ∧ carried id req2 t2 = Sent c2
    ∧ record_of id store1 = Some r1
    ∧ record_of id store2 = Some r2
    ∧ r1 = upsert_spec (record_of id data) c1
    ∧ r2 = upsert_spec (Some r1) c2
    ∧ Design.updatedAt r2 = t2
    ∧ Design.createdAt r2
      = match record_of id data with
        | None => Some t1
        | Some r0 => Design.createdAt r0
        end
    ∧ Design.main r2
      = over (Design.main c2)
          (over (Design.main c1) (record_of id data ≫= Design.main))
    ∧ Design.variants r2
      = over (Design.variants c2)
          (over (Design.variants c1) (record_of id data ≫= Design.variants))
    ∧ Design.video r2
      = over (Design.video c2)
          (over (Design.video c1) (record_of id data ≫= Design.video))
    ∧ Design.preview r2
      = over (Design.preview c2)
          (over (Design.preview c1) (record_of id data ≫= Design.preview))
    ∧ Design.sizeText r2
      = over (Design.sizeText c2)
          (over (Design.sizeText c1) (record_of id data ≫= Design.sizeText))
    ∧ (∀ td2, Design.themeData c2 = Some td2 →
         ∃ td, Design.themeData r2 = Some td
               ∧ ∀ k, td !! k
                      = over (td2 !! k) (default ∅ (Design.themeData r1) !! k))
    ∧ (Design.themeData c2 = None → Design.themeData r2 = Design.themeData r1)
    ∧ Design.theme r2 = or_else (body_theme req2) "default"
    ∧ Design.label r2 = or_else (body_label req2) id
    ∧ Design.finish r2 = or_else (body_finish req2) ""
    ∧ Design.faces r2 = body_faces req2.
Proof.
  intros Hid1 Hid2 [Hup1 ->]%post_upload_Sent [Hup2 ->]%post_upload_Sent.
  destruct (upload_record _ _ _ _ Hup1) as (c1 & Hc1 & Hr1).
  destruct (upload_record _ _ _ _ Hup2) as (c2 & Hc2 & Hr2).
  simpl in *. rewrite Hid1 in Hc1, Hr1. rewrite Hid2 in Hc2, Hr2.
  rewrite Hr1 in Hr2.
  destruct (carried_plain _ _ _ _ Hc1) as (_ & _ & _ & _ & _ & _ & Hcr1).
  destruct (carried_plain _ _ _ _ Hc2) as (_ & Hth & Hla & Hfi & Hfa & Hup & _).
  eexists c1, c2, _, _. split_and!; try done.
  - simpl. by destruct (record_of id data).
  - destruct (record_of id data) as [r0|]; simpl; [done|].
    by destruct (Design.main c1).
  - destruct (record_of id data) as [r0|]; simpl; [done|].
    by destruct (Design.variants c1).
  - destruct (record_of id data) as [r0|]; simpl; [done|].
    by destruct (Design.video c1).
  - destruct (record_of id data) as [r0|]; simpl; [done|].
    by destruct (Design.preview c1).
  - destruct (record_of id data) as [r0|]; simpl; [done|].
    by destruct (Design.sizeText c1).
  - intros td2 Htd2. simpl. rewrite Htd2. eexists. split; [done|].
    intros k. rewrite lookup_union. unfold over.
    destruct (td2 !! k) eqn:Hk; [by rewrite union_Some_l|].
    by rewrite (left_id None _).
  - intros Htd2. simpl. by rewrite Htd2.
Qed.

End UploadTwice.

Lemma upload_twice_witness :
  ∃ r2,
    record_of "TILE1"
      (post_upload (post_upload (catalogue []) blue_main 100).2 blue_video 200).2
    = Some r2
    ∧ Design.updatedAt r2 = 200
    ∧ Design.createdAt r2 = Some 100
    ∧ Design.main r2 = Some "../AXOLI/DATA/TILES/TILE1/TILE1_R1.png"
    ∧ Design.video r2 = Some "../AXOLI/DATA/VIDEO/TILE1.mp4".
Proof.
  destruct (upload_twice (catalogue []) blue_main blue_video 100 200
              (post_upload (catalogue []) blue_main 100).2
              (post_upload (post_upload (catalogue []) blue_main 100).2
                 blue_video 200).2
              (post_upload (catalogue []) blue_main 100).2
              (post_upload (post_upload (catalogue []) blue_main 100).2
                 blue_video 200).2
              "TILE1")
    as (c1 & c2 & r1 & r2 & Hc1 & Hc2 & _ & Hr2 & _ & _ & Hup & Hcr & Hmain
        & _ & Hvideo & _).
  - vm_compute. reflexivity.
  - vm_compute. reflexivity.
  - vm_compute. reflexivity.
  - vm_compute. reflexivity.
  - exists r2. vm_compute in Hc1, Hc2.
    injection Hc1 as <-. injection Hc2 as <-.
    split_and!; [exact Hr2|exact Hup|exact Hcr|exact Hmain|exact Hvideo].
Defined.

(** C4, as stated, fails: the first request carries the label Blue, the
    finish matt and 4 faces, the second a video only, and the stored record
    has the label TILE1, an empty finish and 0 faces. *)
Lemma upload_twice_label_counterexample :
  body_label blue_main = Some "Blue"
  ∧ body_label blue_video = None
  ∧ ∃ r2,
      record_of "TILE1"
        (post_upload (post_upload (catalogue []) blue_main 100).2
           blue_video 200).2
      = Some r2
      ∧ Design.label r2 = "TILE1"
      ∧ Design.finish r2 = ""
      ∧ Design.faces r2 = 0
      ∧ Design.main r2 = Some "../AXOLI/DATA/TILES/TILE1/TILE1_R1.png"
      ∧ Design.video r2 = Some "../AXOLI/DATA/VIDEO/TILE1.mp4".
Proof. split_and!; [done..|]. eexists. vm_compute. done. Qed.

(** ** POST /api/upload: the variant counter *)

Section Variants.
Context `{JsString}.

(** The loop numbers the accepted files from the counter on, one by one,
    and throws when two of them were stored under one name. *)
Lemma rename_variants_numbered id counter moved variants :
  rename_variants id counter moved variants
  = if bool_decide (NoDup (variant_sources id variants)
                    ∧ Forall (λ n, n ∉ moved) (variant_sources id variants))
    then Some (imap (λ k (fe : File * string),
                       (fe.1, id +:+ "_R" +:+ pretty (counter + k)%nat
                              +:+ "." +:+ fe.2))
                 (accepted variants))
    else None.
Proof.
  revert counter moved.
  induction variants as [|f rest IH]; intros counter moved; [done|].
  unfold variant_sources, accepted in *. cbn [rename_variants omap list_omap].
  destruct (safeExt (originalname f) images) as [ext|]; simpl; [|apply IH].
  case_bool_decide as Hmoved.
  { rewrite bool_decide_eq_false_2; [done|].
    intros [_ [? _]%Forall_cons]. done. }
  rewrite IH. clear IH.
  set (srcs := (λ fe : File * string, filename "default" id fe.1) <$> _).
  destruct (decide (NoDup srcs ∧ Forall (λ n, n ∉ filename "default" id f :: moved) srcs))
    as [[Hnd Hall]|Hno].
  - rewrite !bool_decide_eq_true_2.
    + simpl. do 2 f_equal.
      * by rewrite Nat.add_0_r.
      * apply imap_ext. intros k fe _. simpl. by rewrite Nat.add_succ_r.
    + split.
      * apply NoDup_cons. split; [|done]. intros Hin.
        by eapply Forall_forall in Hall as [? _]%not_elem_of_cons.
      * apply Forall_cons. split; [done|].
        eapply Forall_impl; [done|]. by intros n [_ ?]%not_elem_of_cons.
    + done.
  - rewrite !bool_decide_eq_false_2; [done| |done].
    intros [[Hf Hnd]%NoDup_cons [_ Hall]%Forall_cons]. apply Hno.
    split; [done|]. apply Forall_forall. intros n Hn.
    apply not_elem_of_cons. split; [by intros ->|].
    by eapply Forall_forall in Hall.
Qed.



End Variants.



(** Two accepted variant files that multer named in the same millisecond,
    with the same extension: the second move throws. *)
Example upload_variants_twins :
  post_upload (catalogue []) tile1_twins 100
  = (Failed 500 "Upload failed", catalogue []).
Proof. vm_compute. reflexivity. Qed.

(** ** POST /api/upload: the files of a flexible theme *)


(** The groups of [filesByField]: one for each field name that occurs,
    with the files of that name in upload order. *)
Lemma push_file_new f groups :
  fieldname f ∉ groups.*1 → push_file f groups = groups ++ [(fieldname f, [f])].
Proof.
  induction groups as [|[k fs] rest IH]; simpl; [done|].
  rewrite not_elem_of_cons. intros [Hk Hrest].
  rewrite bool_decide_eq_false_2 by done. by rewrite IH.
Qed.

Lemma push_file_old f groups :
  fieldname f ∈ groups.*1 →
  ∃ g1 arr g2,
    groups = g1 ++ (fieldname f, arr) :: g2
    ∧ push_file f groups = g1 ++ (fieldname f, arr ++ [f]) :: g2.
Proof.
  induction groups as [|[k fs] rest IH]; simpl.
  { by intros ?%elem_of_nil. }
  case_bool_decide as Hk.
  - intros _. subst k. by exists [], fs, rest.
  - intros [?|Hrest]%elem_of_cons; [done|].
    destruct (IH Hrest) as (g1 & arr & g2 & -> & ->).
    by exists ((k, fs) :: g1), arr, g2.
Qed.

Lemma filesByField_groups fs :
  NoDup (filesByField fs).*1
  ∧ ∀ tag arr,
      (tag, arr) ∈ filesByField fs
      ↔ arr ≠ [] ∧ arr = filter (λ f, fieldname f = tag) fs.
Proof.
  induction fs as [|f fs [IHnd IH]] using rev_ind.
  { split; [constructor|]. intros tag arr. split.
    - by intros ?%elem_of_nil.
    - by intros [? ->]. }
  unfold filesByField in *. rewrite foldl_snoc.
  set (groups := foldl _ [] fs) in *.
  assert (∀ tag, filter (λ g, fieldname g = tag) (fs ++ [f])
    = filter (λ g, fieldname g = tag) fs
      ++ if decide (fieldname f = tag) then [f] else []) as Hfilter.
  { intros tag. by rewrite filter_app. }
  destruct (decide (fieldname f ∈ groups.*1)) as [Hin|Hin].
  - destruct (push_file_old f groups Hin) as (g1 & arr0 & g2 & Hg & ->).
    rewrite Hg in IHnd. split.
    { by rewrite fmap_app, fmap_cons in *. }
    assert ((fieldname f, arr0) ∈ groups) as Harr0.
    { rewrite Hg. apply elem_of_app. right. left. }
    apply IH in Harr0 as [Hne0 Harr0].
    intros tag arr. rewrite Hfilter.
    destruct (decide (fieldname f = tag)) as [<-|Hne].
    + rewrite <-Harr0. split.
      * rewrite elem_of_app, elem_of_cons.
        intros [Hg1|[[= ->]|Hg2]]; [exfalso| |exfalso].
        -- rewrite fmap_app, fmap_cons in IHnd.
           apply NoDup_app in IHnd as (_ & Hdisj & _).
           eapply Hdisj; [by eapply (list_elem_of_fmap_2 fst)|]. left.
        -- split; [|done]. by destruct arr0.
        -- rewrite fmap_app, fmap_cons in IHnd.
           apply NoDup_app in IHnd as (_ & _ & [Hnot _]%NoDup_cons).
           apply Hnot. simpl.
           by apply (list_elem_of_fmap_2 fst g2 (fieldname f, arr)).
      * intros [_ ->]. apply elem_of_app. right. left.
    + rewrite app_nil_r, <-IH, Hg, !elem_of_app, !elem_of_cons.
      split; (intros [?|[[= ? ?]|?]]; [by left|done|by right; right]).
  - rewrite push_file_new by done. split.
    { rewrite fmap_app. apply NoDup_app. split_and!; [done| |].
      - intros k Hk ?%list_elem_of_singleton. simpl in *. by subst.
      - apply NoDup_singleton. }
    intros tag arr. rewrite Hfilter, elem_of_app, list_elem_of_singleton, IH.
    destruct (decide (fieldname f = tag)) as [<-|Hne].
    + assert (filter (λ g, fieldname g = fieldname f) fs = []) as Hnone.
      { destruct (filter _ fs) as [|x l] eqn:Hl; [done|]. destruct Hin.
        apply (list_elem_of_fmap_2 fst _ (fieldname f, x :: l)).
        apply IH. by rewrite Hl. }
      rewrite Hnone. simpl. split.
      * intros [[? ->]|[= ->]]; done.
      * intros [_ ->]. by right.
    + rewrite app_nil_r. split; [|by left].
      intros [?|[= ? ?]]; [done|]. by destruct Hne.
Qed.

Section ThemeFiles.
Context `{JsString}.





End ThemeFiles.



(** The key [__proto__] gets no entry, and of a field name with a slash
    the path has the last segment only. *)
Example upload_theme_proto :
  ∃ doc r,
    post_upload (catalogue []) neo_proto 100 = (Sent doc, doc)
    ∧ record_of "TILE1" doc = Some r
    ∧ Design.themeData r = Some ∅.
Proof. do 2 eexists. vm_compute. done. Qed.

Example upload_theme_slash :
  ∃ doc r,
    post_upload (catalogue []) neo_slash 100 = (Sent doc, doc)
    ∧ record_of "K" doc = Some r
    ∧ Design.themeData r
      = Some {[ "../y" := One "../AXOLI/DATA/ASSETS/K/y_7.png" ]}.
Proof. do 2 eexists. vm_compute. done. Qed.

(** ** What keeps one record per id *)

Lemma findIndex_records id (ds : list Design.t) :
  findIndex id (Some <$> ds) = Some None → id ∉ Design.id <$> ds.
Proof.
  induction ds as [|d ds IH]; [by intros _ ?%elem_of_nil|].
  rewrite !fmap_cons. cbn [findIndex].
  case_bool_decide as Hd; [done|].
  destruct (findIndex id (Some <$> ds)) as [[i|]|]; [done| |done].
  intros _. apply not_elem_of_cons. split; [done|]. by apply IH.
Qed.

(** The upsert keeps the invariant. *)
Lemma upsert_unique_ids data id (p : option Design.t → Design.t) doc :
  (∀ old, Design.id (p old) = id) →
  unique_ids data → upsert data id p = Sent doc → unique_ids doc.
Proof.
  intros Hp (ds & Hds & Hnd). unfold upsert. rewrite Hds.
  destruct (findIndex id (Some <$> ds)) as [[i|]|] eqn:Hi; [| |done].
  - destruct (findIndex_Some _ _ _ Hi) as (old & Hold & Hid).
    rewrite Hold. intros [= <-].
    exists (<[i := spread old (p (Some old))]> ds). split.
    + by rewrite designs_of_set, list_fmap_insert.
    + rewrite list_fmap_insert, list_insert_id; [done|].
      rewrite list_lookup_fmap in Hold. rewrite list_lookup_fmap.
      destruct (ds !! i) as [d|]; simpl in *; [|done].
      injection Hold as ->. by rewrite Hp, Hid.
  - intros [= <-]. exists (ds ++ [p None]). split.
    + by rewrite designs_of_set, fmap_app.
    + rewrite fmap_app. apply NoDup_app. split_and!; [done| |].
      * intros x Hx ?%list_elem_of_singleton. subst x. simpl in *.
        rewrite Hp in Hx. by apply findIndex_records in Hi.
      * apply NoDup_singleton.
Qed.

Section Invariant.
Context `{JsString}.

Lemma post_upload_unique_ids data req now reply doc :
  unique_ids data → post_upload data req now = (reply, doc) → unique_ids doc.
Proof.
  intros Hdata. unfold post_upload.
  destruct (upload data req now) as [doc'|] eqn:Hup; intros [= <- <-]; [|done].
  apply upload_Sent in Hup as (_ & p & Hp & Hup).
  eapply (upsert_unique_ids (seeded data)); [|exact Hdata|exact Hup].
  intros old. apply payload_spec in Hp as [_ Hp]. apply Hp.
Qed.

Lemma delete_design_unique_ids data raw reply doc :
  unique_ids data → delete_design data raw = (reply, doc) → unique_ids doc.
Proof.
  intros (ds & Hds & Hnd). unfold delete_design. rewrite Hds, records_Some.
  case_bool_decide; intros [= <- <-]; [by exists ds|].
  eexists. split; [by rewrite designs_of_set|].
  eapply sublist_NoDup; [done|]. apply fmap_sublist, sublist_filter.
Qed.

End Invariant.

(** So does a reorder of scope "all" when no id is repeated. *)
Lemma put_order_unique_ids data theme order reply doc :
  unique_ids data → theme_scoped theme = false → NoDup order →
  put_order data theme (Some order) = (reply, doc) → unique_ids doc.
Proof.
  intros (ds & Hds & Hnd) Hscope Hord. unfold put_order.
  destruct order as [|o order']; [by intros [= <- <-]; exists ds|].
  rewrite Hds, records_Some.
  set (order := o :: order') in *.
  destruct (new_ids theme order _) as [newIds|] eqn:Hnew.
  2:{ intros [= <- <-]. by exists ds. }
  intros [= <- <-].
  unfold new_ids in Hnew. rewrite Hscope in Hnew.
  destruct (_ || _) eqn:Htest; [done|]. injection Hnew as <-.
  apply orb_false_elim in Htest as [_ Hex].
  apply bool_decide_eq_false_1 in Hex.
  destruct (collect_assigned (byId_of ds) order) as (recs & Hout & Hlen & Hrecs).
  { done. }
  { apply Forall_forall. intros id Hid. apply byId_of_is_Some.
    destruct (decide (id ∈ Design.id <$> ds)) as [|Hnot]; [done|].
    destruct Hex. apply Exists_exists. exists id. split; [done|].
    by rewrite elem_of_list_to_set, sort_designs_ids. }
  exists recs. split; [rewrite designs_of_set; exact Hout|].
  assert (Design.id <$> recs = order) as ->; [|done].
  apply list_eq. intros i. rewrite list_lookup_fmap.
  destruct (order !! i) as [id|] eqn:Hi.
  - destruct (Hrecs i id Hi) as (d & Hd & ->). simpl.
    by apply byId_of_elem in Hd as [_ ->].
  - apply lookup_ge_None in Hi. rewrite lookup_ge_None_2; [done|]. lia.
Qed.

(** * The handlers as a whole *)

(** ** What is refused, and what a refusal does *)

Lemma field_Some k groups arr : field k groups = Some arr → (k, arr) ∈ groups.
Proof.
  induction groups as [|[k' fs] rest IH]; simpl; [done|].
  case_bool_decide as Hk.
  - intros [= ->]. subst k'. left.
  - intros Hrest. right. by apply IH.
Qed.

Lemma field_None k groups arr : field k groups = None → (k, arr) ∉ groups.
Proof.
  induction groups as [|[k' fs] rest IH]; simpl.
  { by intros _ ?%elem_of_nil. }
  case_bool_decide as Hk; [done|].
  intros Hrest [[= ? ?]|?]%elem_of_cons; [done|]. by apply IH in Hrest.
Qed.

(** The file that a single-file field of the default theme stands for is
    the first one sent under the name. *)
Lemma field_first_file k fs : field k (filesByField fs) ≫= head = first_file k fs.
Proof.
  unfold first_file.
  destruct (filesByField_groups fs) as [_ Hgroups].
  destruct (field k (filesByField fs)) as [arr|] eqn:Hfield; simpl.
  - apply field_Some, Hgroups in Hfield as [_ ->]. done.
  - destruct (filter _ fs) as [|f l] eqn:Hl; [done|].
    apply (field_None _ _ (f :: l)) in Hfield. destruct Hfield.
    apply Hgroups. by rewrite Hl.
Qed.

Section Refusals.
Context `{JsString}.

Lemma checked_Failed groups k allowed error status error' :
  checked groups k allowed error = Failed status error' → status = 400%nat.
Proof.
  unfold checked. destruct (field k groups ≫= head) as [f|]; [|done].
  destruct (safeExt _ allowed); [done|]. by intros [= <- _].
Qed.

Lemma payload_Failed id req now status error :
  payload id req now = Failed status error →
  (status = 400 ∨ status = 500)%nat.
Proof.
  unfold payload. case_bool_decide; [|done].
  destruct (checked _ "main" _ _) eqn:Hmain; simpl.
  2:{ intros [= <- <-]. left. by eapply checked_Failed. }
  destruct (rename_variants _ _ _ _); simpl; [|intros [= <- _]; by right].
  destruct (checked _ "video" _ _) eqn:Hvideo; simpl.
  2:{ intros [= <- <-]. left. by eapply checked_Failed. }
  destruct (checked _ "preview" _ _) eqn:Hpreview; simpl; [done|].
  intros [= <- <-]. left. by eapply checked_Failed.
Qed.

Lemma upsert_Failed data id (p : option Design.t → Design.t) status error :
  upsert data id p = Failed status error → status = 500%nat.
Proof.
  unfold upsert. destruct (findIndex _ _) as [[i|]|]; [|done|by intros [= <- _]].
  destruct (_ !! i) as [[old|]|]; [done|by intros [= <- _]..].
Qed.

(** X1. A request that is refused leaves the catalogue file as it was, and its
    status is 400 or 500.  A read never writes. *)
Theorem refused_requests_write_nothing (data : Doc.t) :
  (get_designs data).2 = data
  ∧ (∀ status error,
       (get_designs data).1 = Failed status error → status = 500%nat)
  ∧ (∀ req now status error store,
       post_upload data req now = (Failed status error, store) →
       store = data ∧ (status = 400 ∨ status = 500)%nat)
  ∧ (∀ theme order status error store,
       put_order data theme order = (Failed status error, store) →
       store = data ∧ (status = 400 ∨ status = 500)%nat)
  ∧ (∀ raw status error store,
       delete_design data raw = (Failed status error, store) →
       store = data ∧ (status = 400 ∨ status = 500)%nat).
Proof.
  split_and!.
  - unfold get_designs. destruct (Doc.designs data) as [ds|]; [|done].
    by destruct (sort_designs ds).
  - unfold get_designs. destruct (Doc.designs data) as [ds|]; [|done].
    destruct (sort_designs ds); [done|]. by intros ?? [= <- _].
  - intros req now status error store. unfold post_upload.
    destruct (upload data req now) as [doc|status' error'] eqn:Hup; [done|].
    intros [= -> -> <-]. split; [done|].
    unfold upload in Hup. case_bool_decide; [left; by injection Hup|].
    destruct (grouping_throws _); [right; by injection Hup|].
    destruct (payload _ req now) as [p|] eqn:Hp; simpl in Hup.
    + right. by eapply upsert_Failed.
    + injection Hup as -> ->. by eapply payload_Failed.
  - intros theme order status error store. unfold put_order.
    destruct order as [[|o order]|]; [by intros [= <- _ <-]; auto| |by intros [= <- _ <-]; auto].
    destruct (records (designs_of data)) as [designs|]; [|by intros [= <- _ <-]; auto].
    destruct (new_ids theme (o :: order) _) as [newIds|status' error'] eqn:Hnew; [done|].
    intros [= -> -> <-]. split; [done|]. left.
    unfold new_ids in Hnew. destruct (theme_scoped theme); [done|].
    destruct (_ || _); [by injection Hnew|done].
  - intros raw status error store. unfold delete_design.
    case_bool_decide; [by intros [= <- _ <-]; auto|].
    destruct (records (designs_of data)); [done|]. by intros [= <- _ <-]; auto.
Qed.

End Refusals.

Section Acceptance.
Context `{JsString}.

Lemma checked_Sent fs k allowed error :
  (∃ r, checked (filesByField fs) k allowed error = Sent r)
  ↔ ∀ f, first_file k fs = Some f → is_Some (safeExt (originalname f) allowed).
Proof.
  unfold checked. rewrite field_first_file.
  destruct (first_file k fs) as [f|]; [|by split; eauto].
  destruct (safeExt (originalname f) allowed) as [ext|] eqn:Hext.
  - split; [|by eauto]. intros _ ? [= <-]. by rewrite Hext.
  - split; [by intros [? ?]|]. intros Hf.
    destruct (Hf f eq_refl) as [? Hsome]. by rewrite Hext in Hsome.
Qed.

Lemma rename_variants_is_Some id variants :
  is_Some (rename_variants id 2 [] variants)
  ↔ NoDup (variant_sources id variants).
Proof.
  rewrite rename_variants_numbered. case_bool_decide as Hnd.
  - split; [by intros _; apply Hnd|by eauto].
  - split; [by intros [? ?]|]. intros Hnd'. destruct Hnd.
    split; [done|]. apply Forall_forall. by intros n _ ?%elem_of_nil.
Qed.

Lemma payload_Sent id req now :
  (∃ p, payload id req now = Sent p)
  ↔ (or_else (body_theme req) "default" = "default" →
     (∀ f, first_file "main" (files req) = Some f →
           is_Some (safeExt (originalname f) images))
     ∧ NoDup (variant_sources id (variant_files (filesByField (files req))))
     ∧ (∀ f, first_file "video" (files req) = Some f →
             is_Some (safeExt (originalname f) ["mp4"]))
     ∧ (∀ f, first_file "preview" (files req) = Some f →
             is_Some (safeExt (originalname f) images))).
Proof.
  unfold payload. case_bool_decide as Htheme; [|by split; eauto].
  pose proof (checked_Sent (files req) "main" images
                "Main: invalid image type") as <-.
  pose proof (checked_Sent (files req) "video" ["mp4"]
                "Video: only mp4 allowed") as <-.
  pose proof (checked_Sent (files req) "preview" images
                "Preview: invalid image type") as <-.
  pose proof (rename_variants_is_Some id
                (variant_files (filesByField (files req)))) as <-.
  destruct (checked _ "main" _ _) as [main|]; simpl.
  2:{ split; [by intros [? ?]|]. by intros [[? ?] _]. }
  destruct (rename_variants _ _ _ _) as [renamed|]; simpl.
  2:{ split; [by intros [? ?]|]. by intros (_ & [? ?] & _). }
  destruct (checked _ "video" _ _) as [vid|]; simpl.
  2:{ split; [by intros [? ?]|]. by intros (_ & _ & [? ?] & _). }
  destruct (checked _ "preview" _ _) as [prev|]; simpl.
  2:{ split; [by intros [? ?]|]. by intros (_ & _ & _ & [? ?]). }
  split; eauto 10.
Qed.

(** X2. What makes the handler accept an upload whose fields it reads as
    text, and nothing else does: an id that is not empty once normalized,
    no file field with a name that every object inherits ([constructor],
    [toString], [__proto__], ...), a catalogue in which the search for the
    id meets no [null] entry and, in the default theme only, an allowed
    extension on the first file of each of the fields main (an image),
    video (mp4) and preview (an image), and accepted variant files that
    multer stored under names that differ.  Further files of main, video
    and preview, the extensions of the variant files and the files of a
    flexible theme are never a reason to refuse. *)
Theorem upload_accepted (data : Doc.t) (req : Request) (now : Z) :
  (∃ doc, post_upload data req now = (Sent doc, doc))
  ↔ slug (or_else (body_id req) "") ≠ ""
    ∧ Forall (λ f, fieldname f ∉ inherited) (files req)
    ∧ findIndex (slug (or_else (body_id req) "")) (designs_of data) ≠ None
    ∧ (or_else (body_theme req) "default" = "default" →
       (∀ f, first_file "main" (files req) = Some f →
             is_Some (safeExt (originalname f) images))
       ∧ NoDup (variant_sources (slug (or_else (body_id req) ""))
                  (variant_files (filesByField (files req))))
       ∧ (∀ f, first_file "video" (files req) = Some f →
               is_Some (safeExt (originalname f) ["mp4"]))
       ∧ (∀ f, first_file "preview" (files req) = Some f →
               is_Some (safeExt (originalname f) images))).
Proof.
  rewrite <-payload_Sent. split.
  - intros (doc & [Hup _]%post_upload_Sent).
    pose proof (upload_Sent_grouping _ _ _ _ Hup) as Hgroup.
    apply upload_Sent in Hup as (Hid & p & Hp & Hup). simpl in *.
    split_and!; [done| | |by eauto].
    + apply bool_decide_eq_false_1 in Hgroup.
      apply Forall_forall. intros f Hf Hin. apply Hgroup.
      apply Exists_exists. eauto.
    + intros Hnone. unfold upsert in Hup.
      change (designs_of (seeded data)) with (designs_of data) in Hup.
      by rewrite Hnone in Hup.
  - intros (Hid & Hnames & Hfind & p & Hp).
    destruct (upsert_Sent (seeded data) _ p Hfind) as [doc Hdoc].
    exists doc. apply post_upload_Sent. split; [|done].
    unfold upload, grouping_throws.
    rewrite !bool_decide_eq_false_2, Hp; [done| |done].
    intros (f & Hf & Hin)%Exists_exists. by eapply Forall_forall in Hnames.
Qed.

End Acceptance.

(** An upload of the default theme with a main image, a second main file
    that is no image and a variant that is no image is accepted. *)
Lemma upload_accepted_witness :
  ∃ doc,
    post_upload (catalogue ab)
      (request "tile 1" None None None 1
         [file "main" "a.PNG" 1; file "main" "b.exe" 2;
          file "variants[]" "c.txt" 3]) 100
    = (Sent doc, doc).
Proof.
  apply upload_accepted. split_and!.
  - vm_compute. discriminate.
  - apply (bool_decide_unpack _). vm_compute. exact I.
  - vm_compute. discriminate.
  - intros _. split_and!.
    + intros f Hf. vm_compute in Hf. injection Hf as <-. by eexists.
    + apply (bool_decide_unpack _). vm_compute. exact I.
    + intros f Hf. vm_compute in Hf. discriminate Hf.
    + intros f Hf. vm_compute in Hf. discriminate Hf.
Defined.

(** ** What an upload leaves alone *)

Section UploadKeeps.
Context `{JsString}.

(** X3. An upload that is sent touches one entry of the catalogue.  When the
    id is stored already, its record is replaced where it stands, with its
    position and its creation time as they were; when it is not, a record
    without position, created at the time of the upload, is added at the
    end.  Every other entry stays, where it was.  The logo and the size
    icon are given their defaults when they are missing or empty. *)
Theorem upload_keeps_the_rest (data : Doc.t) (req : Request) (now : Z)
    (doc store : Doc.t) :
  post_upload data req now = (Sent doc, store) →
  let id := slug (or_else (body_id req) "") in
  Doc.brandLogo store
  = Some (or_else (Doc.brandLogo data) "../AXOLI/DATA/logo.svg")
  ∧ Doc.sizeIcon store
    = Some (or_else (Doc.sizeIcon data) "../AXOLI/DATA/size.svg")
  ∧ ∃ r, Design.id r = id
    ∧ ((findIndex id (designs_of data) = Some None
        ∧ designs_of store = designs_of data ++ [Some r]
        ∧ Design.position r = None
        ∧ Design.createdAt r = Some now)
       ∨ (∃ i old,
            findIndex id (designs_of data) = Some (Some i)
            ∧ designs_of data !! i = Some (Some old)
            ∧ Design.id old = id
            ∧ designs_of store = <[i := Some r]> (designs_of data)
            ∧ Design.position r = Design.position old
            ∧ Design.createdAt r = Design.createdAt old)).
Proof.
  intros [Hup ->]%post_upload_Sent id.
  apply upload_Sent in Hup as (Hid & p & Hp & Hup). fold id in Hp, Hup.
  destruct (payload_spec _ _ _ _ Hp) as [Hc Hspec].
  destruct (carried_plain _ _ _ _ Hc) as (_ & _ & _ & _ & _ & _ & Hcreated).
  unfold upsert in Hup.
  change (designs_of (seeded data)) with (designs_of data) in Hup.
  destruct (findIndex id (designs_of data)) as [[i|]|] eqn:Hi; [| |done].
  - destruct (findIndex_Some _ _ _ Hi) as (old & Hold & Hidold).
    rewrite Hold in Hup. injection Hup as <-.
    split; [done|]. split; [done|].
    destruct (Hspec (Some old)) as [Hidp <-].
    eexists. split; [|right; exists i, old; split_and!; try done].
    simpl. apply (Hspec None).
  - injection Hup as <-. split; [done|]. split; [done|].
    exists (p None). split; [apply Hspec|]. left. split_and!; try done.
    unfold payload in Hp. case_bool_decide.
    + destruct (checked _ "main" _ _); [|done].
      destruct (rename_variants _ _ _ _); [|done].
      destruct (checked _ "video" _ _); [|done].
      destruct (checked _ "preview" _ _); [|done].
      simpl in Hp. by injection Hp as <-.
    + by injection Hp as <-.
Qed.

End UploadKeeps.

(** An upload for the id B, which is stored second. *)
Lemma upload_keeps_the_rest_witness :
  ∃ r, designs_of
         (post_upload (catalogue ab)
            (request "b" None None None 0 [file "main" "b.png" 1]) 100).2
       = [Some (design "A" None (Some 1)); Some r]
       ∧ Design.position r = None
       ∧ Design.createdAt r = Some 2.
Proof.
  destruct (upload_keeps_the_rest (catalogue ab)
              (request "b" None None None 0 [file "main" "b.png" 1]) 100
              (post_upload (catalogue ab)
                 (request "b" None None None 0 [file "main" "b.png" 1]) 100).2
              (post_upload (catalogue ab)
                 (request "b" None None None 0 [file "main" "b.png" 1]) 100).2)
    as (_ & _ & r & _ & [(Hfind & _)|(i & old & Hfind & Hold & _ & Hds & Hpos & Hcr)]).
  - vm_compute. reflexivity.
  - vm_compute in Hfind. discriminate Hfind.
  - exists r. vm_compute in Hfind. injection Hfind as <-.
    vm_compute in Hold. injection Hold as <-.
    split_and!; [exact Hds|exact Hpos|exact Hcr].
Defined.

(** ** The same upload, again *)

Lemma over_over {A} (x y : option A) : over x (over x y) = over x y.
Proof. by destruct x. Qed.

Lemma over_same {A} (x : option A) : over x x = x.
Proof. by destruct x. Qed.

Lemma record_of_Some id data r :
  record_of id data = Some r →
  ∃ i, findIndex id (designs_of data) = Some (Some i)
       ∧ designs_of data !! i = Some (Some r).
Proof.
  unfold record_of.
  destruct (findIndex id (designs_of data)) as [[i|]|]; [|done..].
  destruct (designs_of data !! i) as [[d|]|] eqn:Hd; [|done..].
  intros [= ->]. by exists i.
Qed.

Lemma or_else_or_else s d : or_else (Some (or_else s d)) d = or_else s d.
Proof.
  destruct s as [s|]; simpl; repeat case_bool_decide; congruence.
Qed.

Lemma seeded_seeded data : seeded (seeded data) = seeded data.
Proof.
  unfold seeded. f_equal; cbn [Doc.brandLogo Doc.sizeIcon];
    by rewrite ?or_else_or_else.
Qed.

Lemma seeded_set_designs data ds :
  seeded (set_designs (seeded data) ds) = set_designs (seeded data) ds.
Proof.
  unfold seeded, set_designs. f_equal; cbn [Doc.brandLogo Doc.sizeIcon];
    by rewrite ?or_else_or_else.
Qed.

Section UploadAgain.
Context `{JsString}.

Lemma payload_again id req t1 t2 p1 :
  payload id req t1 = Sent p1 →
  ∃ p2, payload id req t2 = Sent p2
        ∧ ∀ old,
            let r := upsert_spec old (p1 None) in
            spread r (p2 (Some r)) = set_updatedAt t2 r.
Proof.
  unfold payload. case_bool_decide as Htheme.
  - destruct (checked _ "main" _ _) as [main|]; [|done].
    destruct (rename_variants _ _ _ _); [|done].
    destruct (checked _ "video" _ _) as [vid|]; [|done].
    destruct (checked _ "preview" _ _) as [prev|]; [|done].
    simpl. intros [= <-]. eexists. split; [done|].
    intros [o|]; unfold spread, set_updatedAt, default_payload; simpl;
      f_equal; by rewrite ?over_over, ?over_same.
  - intros [= <-]. eexists. split; [done|].
    intros [o|]; unfold spread, set_updatedAt, flexible_payload; simpl;
      f_equal; f_equal;
      by rewrite !(right_id_L ∅ (∪)), ?(assoc_L (∪)), (idemp_L (∪)).
Qed.

(** X4. An upload that was sent, sent once more (the same fields, and the
    files under the names multer gave them the first time), is sent again
    and changes the time of the last update of its record and nothing else
    in the catalogue: it is the record that the first upload left that is
    found, at the same place, and every field that the request carries has
    the value it has already. *)
Theorem upload_again (data : Doc.t) (req : Request) (t1 t2 : Z)
    (doc1 store1 : Doc.t) :
  post_upload data req t1 = (Sent doc1, store1) →
  ∃ i r,
    designs_of store1 !! i = Some (Some r)
    ∧ Design.id r = slug (or_else (body_id req) "")
    ∧ let doc2 :=
        set_designs store1
          (<[i := Some (set_updatedAt t2 r)]> (designs_of store1)) in
      post_upload store1 req t2 = (Sent doc2, doc2).
Proof.
  intros [Hup ->]%post_upload_Sent.
  destruct (upload_record _ _ _ _ Hup) as (c & Hc & Hr).
  pose proof (upload_Sent_grouping _ _ _ _ Hup) as Hgroup.
  apply upload_Sent in Hup as (Hid & p1 & Hp1 & Hup). simpl in *.
  destruct (payload_spec _ _ _ _ Hp1) as [Hc1 Hspec].
  rewrite Hc1 in Hc. injection Hc as <-.
  destruct (record_of_Some _ _ _ Hr) as (i & Hi & Hlook).
  destruct (payload_again _ _ _ t2 _ Hp1) as (p2 & Hp2 & Hagain).
  eexists i, _. split; [exact Hlook|]. split.
  { destruct (record_of _ data); simpl; apply (Hspec None). }
  apply post_upload_Sent. split; [|done].
  unfold upload. rewrite bool_decide_eq_false_2 by done.
  rewrite Hgroup, Hp2. simpl. unfold upsert.
  assert (seeded doc1 = doc1) as ->.
  { unfold upsert in Hup. destruct (findIndex _ _) as [[j|]|]; [| |done].
    - destruct (_ !! j) as [[old|]|]; [|done..]. injection Hup as <-.
      apply seeded_set_designs.
    - injection Hup as <-. apply seeded_set_designs. }
  by rewrite Hi, Hlook, Hagain.
Qed.

End UploadAgain.

(** The upload of a main image for the id TILE1, at the times 100 and 200. *)
Lemma upload_again_witness :
  ∃ i r,
    designs_of (post_upload (catalogue ab) blue_main 100).2 !! i
    = Some (Some r)
    ∧ Design.id r = slug (or_else (body_id blue_main) "")
    ∧ let doc2 :=
        set_designs (post_upload (catalogue ab) blue_main 100).2
          (<[i := Some (set_updatedAt 200 r)]>
             (designs_of (post_upload (catalogue ab) blue_main 100).2)) in
      post_upload (post_upload (catalogue ab) blue_main 100).2 blue_main 200
      = (Sent doc2, doc2).
Proof.
  apply (upload_again (catalogue ab) blue_main 100 200
           (post_upload (catalogue ab) blue_main 100).2
           (post_upload (catalogue ab) blue_main 100).2).
  vm_compute. reflexivity.
Defined.

(** ** Deleting what is not there, and what was just added *)

Lemma findIndex_absent id (ds : list Design.t) :
  id ∉ Design.id <$> ds → findIndex id (Some <$> ds) = Some None.
Proof.
  induction ds as [|d ds IH]; [done|].
  rewrite !fmap_cons. cbn [findIndex].
  intros [Hd Hds]%not_elem_of_cons.
  rewrite bool_decide_eq_false_2 by done. by rewrite IH.
Qed.

Lemma filter_other_ids id (ds : list Design.t) :
  id ∉ Design.id <$> ds → filter (λ d, Design.id d ≠ id) ds = ds.
Proof.
  induction ds as [|d ds IH]; [done|].
  rewrite fmap_cons. intros [Hd Hds]%not_elem_of_cons.
  rewrite filter_cons_True by done. by rewrite IH.
Qed.

Lemma filter_other_ids_absent id (ds : list Design.t) :
  id ∉ Design.id <$> filter (λ d, Design.id d ≠ id) ds.
Proof.
  intros (d & -> & Hd)%list_elem_of_fmap.
  by apply list_elem_of_filter in Hd as [Hd _].
Qed.

Lemma not_Exists_absent id (ds : list Design.t) :
  id ∉ Design.id <$> ds →
  bool_decide (Exists (λ d, Design.id d = id) ds) = false.
Proof.
  intros Hid. apply bool_decide_eq_false_2.
  intros (d & Hd & <-)%Exists_exists. destruct Hid.
  by apply list_elem_of_fmap_2.
Qed.

Section DeleteAbsent.
Context `{JsString}.

(** X5. Deleting an id that no record has is no error: the reply has the
    designs as they are and [removed: false], and the designs are written
    back as they were. *)
Theorem delete_design_absent (data : Doc.t) (raw : string)
    (ds : list Design.t) :
  designs_of data = Some <$> ds →
  slug raw ≠ "" →
  slug raw ∉ Design.id <$> ds →
  delete_design data raw
  = (Sent (Some <$> ds, false), set_designs data (Some <$> ds)).
Proof.
  intros Hds Hid Habsent. unfold delete_design.
  rewrite bool_decide_eq_false_2 by done.
  rewrite Hds, records_Some, not_Exists_absent by done.
  by rewrite filter_other_ids.
Qed.

(** X6. A delete that is sent, sent once more, is sent with the same designs
    and [removed: false], and leaves the catalogue file as the first one
    wrote it. *)
Theorem delete_design_twice (data : Doc.t) (raw : string)
    (ds : list (option Design.t)) (removed : bool) (store : Doc.t) :
  delete_design data raw = (Sent (ds, removed), store) →
  delete_design store raw = (Sent (ds, false), store).
Proof.
  unfold delete_design. case_bool_decide as Hid; [done|].
  destruct (records (designs_of data)) as [designs|]; [|done].
  intros [= <- _ <-]. rewrite designs_of_set, records_Some.
  rewrite not_Exists_absent by apply filter_other_ids_absent.
  rewrite filter_other_ids by apply filter_other_ids_absent.
  done.
Qed.

(** X7. An upload for an id that no record has, then the delete of that id,
    gives back the designs that were stored before the upload. *)
Theorem upload_then_delete (data : Doc.t) (req : Request) (now : Z)
    (raw : string) (ds : list Design.t) (doc store : Doc.t) :
  designs_of data = Some <$> ds →
  slug (or_else (body_id req) "") ∉ Design.id <$> ds →
  slug raw = slug (or_else (body_id req) "") →
  post_upload data req now = (Sent doc, store) →
  delete_design store raw
  = (Sent (Some <$> ds, true), set_designs store (Some <$> ds)).
Proof.
  intros Hds Habsent Hraw [Hup ->]%post_upload_Sent.
  apply upload_Sent in Hup as (Hid & p & Hp & Hup). simpl in *.
  apply payload_spec in Hp as [_ Hp].
  unfold upsert in Hup.
  change (designs_of (seeded data)) with (designs_of data) in Hup.
  rewrite Hds, findIndex_absent in Hup by done. injection Hup as <-.
  unfold delete_design. rewrite Hraw, bool_decide_eq_false_2 by done.
  rewrite designs_of_set.
  change [Some (p None)] with (Some <$> [p None]).
  rewrite <-fmap_app, records_Some, filter_app, filter_other_ids by done.
  rewrite filter_cons_False, filter_nil, app_nil_r.
  2:{ intros Hne. apply Hne, Hp. }
  rewrite bool_decide_eq_true_2; [done|].
  apply Exists_app. right. left. apply Hp.
Qed.

End DeleteAbsent.

Lemma delete_design_absent_witness :
  delete_design (catalogue tiles) "tile 3"
  = (Sent (Some <$> tiles, false), catalogue tiles).
Proof.
  apply (delete_design_absent (catalogue tiles) "tile 3" tiles).
  - reflexivity.
  - vm_compute. discriminate.
  - vm_compute. intros Hin. by repeat apply elem_of_cons in Hin as [?|Hin];
      try apply elem_of_nil in Hin.
Defined.

Lemma delete_design_twice_witness :
  delete_design (delete_design (catalogue tiles) " tile-1 ").2 " tile-1 "
  = (Sent ([Some (design "TILE_2" None (Some 2))], false),
     catalogue [design "TILE_2" None (Some 2)]).
Proof.
  apply (delete_design_twice (catalogue tiles) " tile-1 " _ true).
  vm_compute. reflexivity.
Defined.

Lemma upload_then_delete_witness :
  designs_of
    (delete_design (post_upload (catalogue ab) blue_main 100).2 "Tile1").2
  = Some <$> ab.
Proof.
  rewrite (upload_then_delete (catalogue ab) blue_main 100 "Tile1" ab
             (post_upload (catalogue ab) blue_main 100).2
             (post_upload (catalogue ab) blue_main 100).2).
  - reflexivity.
  - reflexivity.
  - vm_compute. intros Hin. by repeat apply elem_of_cons in Hin as [?|Hin];
      try apply elem_of_nil in Hin.
  - vm_compute. reflexivity.
  - vm_compute. reflexivity.
Defined.

(** ** A null entry in the catalogue *)

Lemma records_null ds : None ∈ ds → records ds = None.
Proof.
  intros Hnull. apply mapM_None, Exists_exists. by exists None.
Qed.

Lemma findIndex_null id ds :
  None ∈ ds → (∀ d, Some d ∈ ds → Design.id d ≠ id) → findIndex id ds = None.
Proof.
  induction ds as [|[d|] ds IH]; simpl; [by intros ?%elem_of_nil| |done].
  intros [?|Hnull]%elem_of_cons Hids; [done|].
  rewrite bool_decide_eq_false_2 by (apply Hids; left).
  rewrite IH; [done..|]. intros d' Hd'. apply Hids. by right.
Qed.

Lemma substitute_first (set : gset string) x it current :
  (∃ d, d ∈ current ∧ Design.id d ∈ set) →
  Some x ∈ substitute set (x :: it) current.
Proof.
  intros (d & Hd & Hset).
  induction current as [|c current IH]; [by apply elem_of_nil in Hd|].
  cbn [substitute]. case_bool_decide as Hc; [left|].
  right. apply IH. apply elem_of_cons in Hd as [->|Hd]; done.
Qed.

Lemma assign_positions_None i newIds (byId : gmap string Design.t) id :
  byId !! id = None → assign_positions i newIds byId !! id = None.
Proof.
  revert i byId. induction newIds as [|[id'|] newIds IH]; intros i byId Hid;
    simpl; [done| |by apply IH].
  apply IH. destruct (byId !! id') as [d|] eqn:Hd; [|done].
  rewrite lookup_insert_ne; [done|]. by intros ->; rewrite Hid in Hd.
Qed.

Lemma byId_of_None ds id : id ∉ Design.id <$> ds → byId_of ds !! id = None.
Proof.
  intros Hid. destruct (byId_of ds !! id) as [d|] eqn:Hd; [|done].
  apply byId_of_elem in Hd as [Hd <-]. destruct Hid.
  by apply list_elem_of_fmap_2.
Qed.

Section NullEntry.
Context `{JsString}.

(** X8. Once an entry of the catalogue is [null], every reorder and every
    delete is refused (with 500 when the order is not empty and the id is
    not empty), the designs cannot be read any more when there are two
    entries or more, and no design can be added; the catalogue file stays
    as it is. *)
Theorem null_entry_blocks (data : Doc.t) :
  None ∈ designs_of data →
  (∀ theme o order,
     put_order data theme (Some (o :: order))
     = (Failed 500 "Failed to save order", data))
  ∧ (∀ raw, slug raw ≠ "" →
       delete_design data raw = (Failed 500 "Failed to delete design", data))
  ∧ ((2 ≤ length (designs_of data))%nat →
     get_designs data = (Failed 500 "Failed to read catalogue", data))
  ∧ (∀ req now,
       (∀ d, Some d ∈ designs_of data →
             Design.id d ≠ slug (or_else (body_id req) "")) →
       ∃ status error,
         post_upload data req now = (Failed status error, data)).
Proof.
  intros Hnull. split_and!.
  - intros theme o order. unfold put_order. by rewrite records_null.
  - intros raw Hraw. unfold delete_design.
    rewrite bool_decide_eq_false_2 by done. by rewrite records_null.
  - intros Hlen. unfold get_designs, designs_of in *.
    destruct (Doc.designs data) as [ds|]; simpl in *; [|lia].
    unfold sort_designs. rewrite records_null by done.
    by destruct ds as [|? [|? ?]]; simpl in *; [lia..|].
  - intros req now Hids. unfold post_upload, upload.
    case_bool_decide; [by eauto|].
    destruct (grouping_throws _); [by eauto|].
    destruct (payload _ req now) as [p|] eqn:Hp; simpl; [|by eauto].
    unfold upsert.
    change (designs_of (seeded data)) with (designs_of data).
    rewrite findIndex_null by done. by eauto.
Qed.

End NullEntry.

(** X9. A reorder within a theme whose first id is the id of no record, and
    one of whose ids is the id of a record, is sent, and stores a [null]
    entry. *)
Theorem put_order_theme_null (data : Doc.t) (ds : list Design.t)
    (theme : option string) (x : string) (order : list string) (d : Design.t) :
  designs_of data = Some <$> ds →
  theme_scoped theme = true →
  x ∉ Design.id <$> ds →
  d ∈ ds → Design.id d ∈ x :: order →
  ∃ out,
    put_order data theme (Some (x :: order)) = (Sent out, set_designs data out)
    ∧ None ∈ out.
Proof.
  intros Hds Hscope Hx Hd Hin. unfold put_order, new_ids.
  rewrite Hds, records_Some, Hscope. eexists. split; [done|].
  unfold collect.
  apply (list_elem_of_fmap_2' _ _ (Some x)).
  - apply substitute_first. exists d. split.
    + by rewrite sort_perm.
    + by apply elem_of_list_to_set.
  - simpl. symmetry. by apply assign_positions_None, byId_of_None.
Qed.

Lemma null_entry_blocks_witness :
  put_order (set_designs (catalogue []) [Some (design "A" None None); None])
    None (Some ["A"])
  = (Failed 500 "Failed to save order",
     set_designs (catalogue []) [Some (design "A" None None); None]).
Proof.
  apply (null_entry_blocks
           (set_designs (catalogue []) [Some (design "A" None None); None])).
  right. left.
Defined.

Lemma put_order_theme_null_witness :
  ∃ out,
    put_order (catalogue ab) (Some "neo") (Some ["X"; "A"])
    = (Sent out, set_designs (catalogue ab) out)
    ∧ None ∈ out.
Proof.
  apply (put_order_theme_null (catalogue ab) ab (Some "neo") "X" ["A"]
           (design "A" None (Some 1))).
  - reflexivity.
  - reflexivity.
  - vm_compute. intros Hin. by repeat apply elem_of_cons in Hin as [?|Hin];
      try apply elem_of_nil in Hin.
  - left.
  - right. left.
Defined.

(** ** The positions a reorder writes *)

Lemma assign_positions_range i newIds (byId : gmap string Design.t) id d :
  Some id ∈ newIds →
  assign_positions i newIds byId !! id = Some d →
  ∃ p, Design.position d = Some p
       ∧ Z.of_nat i + 1 ≤ p ≤ Z.of_nat i + Z.of_nat (length newIds).
Proof.
  revert i byId. induction newIds as [|oid newIds IH]; intros i byId Hin Hd.
  { by apply elem_of_nil in Hin. }
  cbn [assign_positions] in Hd. cbn [length].
  destruct (decide (Some id ∈ newIds)) as [Hrest|Hrest].
  { destruct (IH _ _ Hrest Hd) as (p & Hp & Hrange). exists p. split; [done|lia]. }
  apply elem_of_cons in Hin as [<-|?]; [|done].
  rewrite assign_positions_notin in Hd by done.
  destruct (byId !! id) as [d0|] eqn:Hd0; [|by rewrite Hd0 in Hd].
  rewrite lookup_insert_eq in Hd. injection Hd as <-.
  eexists. split; [done|]. lia.
Qed.

(** X10. After a reorder that is sent, of either scope and with any ids, every
    record of the catalogue has a position, between 1 and the number of
    entries. *)
Theorem put_order_positions (data : Doc.t) (theme : option string)
    (order : option (list string)) (out : list (option Design.t))
    (store : Doc.t) (d : Design.t) :
  put_order data theme order = (Sent out, store) →
  Some d ∈ designs_of store →
  ∃ p, Design.position d = Some p ∧ 1 ≤ p ≤ Z.of_nat (length (designs_of store)).
Proof.
  unfold put_order. destruct order as [[|o order]|]; [done| |done].
  destruct (records (designs_of data)) as [designs|]; [|done].
  destruct (new_ids theme (o :: order) _) as [newIds|]; [|done].
  intros [= <- <-]. rewrite designs_of_set. unfold collect.
  rewrite length_fmap. intros ([id|] & Hd & Hid)%list_elem_of_fmap; [|done].
  simpl in Hd. symmetry in Hd.
  destruct (assign_positions_range _ _ _ _ _ Hid Hd) as (p & Hp & Hrange).
  exists p. split; [done|]. lia.
Qed.

Lemma put_order_positions_witness :
  ∃ p, Design.position (set_position (design "B" None (Some 2)) 1) = Some p
       ∧ 1 ≤ p
           ≤ Z.of_nat
               (length
                  (designs_of (put_order (catalogue ab) None (Some ["B"; "A"])).2)).
Proof.
  apply (put_order_positions (catalogue ab) None (Some ["B"; "A"])
           (designs_of (put_order (catalogue ab) None (Some ["B"; "A"])).2)).
  - vm_compute. reflexivity.
  - vm_compute. left.
Defined.

(** ** What a reorder of all the designs leaves alone *)

Lemma omap_Some {A} (l : list A) : omap (λ x, x) (Some <$> l) = l.
Proof. induction l as [|x l IH]; [done|]. simpl in *. by f_equal. Qed.

(** X11. A reorder of scope "all" that is sent, for a catalogue with one record
    per id and an order without a repeated id, stores the records it found,
    each one once: nothing of a record changes but its position, no record
    is lost and none is added. *)
Theorem put_order_keeps_records (data : Doc.t) (ds : list Design.t)
    (theme : option string) (order : list string)
    (out : list (option Design.t)) (store : Doc.t) :
  designs_of data = Some <$> ds →
  NoDup (Design.id <$> ds) →
  theme_scoped theme = false →
  NoDup order →
  put_order data theme (Some order) = (Sent out, store) →
  ∃ recs,
    designs_of store = Some <$> recs
    ∧ clear_position <$> recs ≡ₚ clear_position <$> ds.
Proof.
  intros Hds Hnd Hscope Hord. unfold put_order.
  destruct order as [|o order']; [done|].
  rewrite Hds, records_Some.
  set (order := o :: order') in *.
  destruct (new_ids theme order _) as [newIds|] eqn:Hnew; [|done].
  intros [= <- <-]. rewrite designs_of_set.
  unfold new_ids in Hnew. rewrite Hscope in Hnew.
  destruct (_ || _) eqn:Htest; [done|]. injection Hnew as <-.
  apply orb_false_elim in Htest as [Hlen Hex].
  apply bool_decide_eq_false_1 in Hex.
  apply bool_decide_eq_false_1, dec_stable in Hlen.
  assert (∀ id, id ∈ order → id ∈ Design.id <$> ds) as Hsub.
  { intros id Hid.
    destruct (decide (id ∈ Design.id <$> ds)) as [|Hnot]; [done|].
    destruct Hex. apply Exists_exists. exists id. split; [done|].
    by rewrite elem_of_list_to_set, sort_designs_ids. }
  assert (order ≡ₚ Design.id <$> ds) as Hperm.
  { apply submseteq_length_Permutation; [by apply NoDup_submseteq|].
    rewrite Hlen, size_list_to_set by (by rewrite sort_perm).
    by rewrite !length_fmap, sort_length. }
  destruct (collect_assigned (byId_of ds) order) as (recs & Hout & Hlenr & Hrecs).
  { done. }
  { apply Forall_forall. intros id Hid. by apply byId_of_is_Some, Hsub. }
  exists recs. split; [exact Hout|].
  rewrite <-(omap_Some (clear_position <$> recs)).
  rewrite <-(omap_Some (clear_position <$> ds)).
  assert (Some <$> (clear_position <$> recs)
          = (λ id, clear_position <$> byId_of ds !! id) <$> order) as ->.
  { apply list_eq. intros i. rewrite !list_lookup_fmap.
    destruct (order !! i) as [id|] eqn:Hi; simpl.
    - destruct (Hrecs i id Hi) as (d & Hd & ->). by rewrite Hd.
    - apply lookup_ge_None in Hi. rewrite lookup_ge_None_2; [done|]. lia. }
  rewrite Hperm. rewrite <-!list_fmap_compose.
  assert ((λ id, clear_position <$> byId_of ds !! id) ∘ Design.id <$> ds
          = Some ∘ clear_position <$> ds) as ->; [|done].
  apply list_fmap_ext. intros i d Hd. simpl.
  rewrite byId_of_unique; [done..|]. by eapply list_elem_of_lookup_2.
Qed.

Lemma put_order_keeps_records_witness :
  ∃ recs,
    designs_of (put_order (catalogue ab) None (Some ["B"; "A"])).2
    = Some <$> recs
    ∧ clear_position <$> recs ≡ₚ clear_position <$> ab.
Proof.
  apply (put_order_keeps_records (catalogue ab) ab None ["B"; "A"]
           (designs_of (put_order (catalogue ab) None (Some ["B"; "A"])).2)).
  - reflexivity.
  - vm_compute. apply (bool_decide_unpack _). vm_compute. exact I.
  - reflexivity.
  - apply (bool_decide_unpack _). vm_compute. exact I.
  - vm_compute. reflexivity.
Defined.

(** ** Reading twice *)

Lemma records_inv ds l : records ds = Some l → ds = Some <$> l.
Proof.
  intros Hl. symmetry. by apply (mapM_fmap_Some_inv (λ d, d) Some).
Qed.

Lemma sort_designs_perm ds ds' : sort_designs ds = Some ds' → ds' ≡ₚ ds.
Proof.
  unfold sort_designs. destruct ds as [|a [|b ds]]; [by intros [= <-]..|].
  destruct (records _) as [l|] eqn:Hl; [|done]. simpl. intros [= <-].
  apply records_inv in Hl as ->. by rewrite sort_perm.
Qed.

Lemma sort_designs_fixed ds ds' :
  sort_designs ds = Some ds' → sort_designs ds' = Some ds'.
Proof.
  unfold sort_designs at 1. destruct ds as [|a [|b ds]]; [by intros [= <-]..|].
  destruct (records _) as [l|]; [|done]. simpl. intros [= <-].
  rewrite sort_designs_Some, sort_designs_id; [done|].
  apply StronglySorted_Sorted, sort_designs_sorted.
Qed.

(** X12. The document that a read sends has the logo and the size icon of the
    catalogue file and the entries of its designs, each one once; reading
    the document that was sent sends that document again, in the same
    order. *)
Theorem get_designs_again (data doc store : Doc.t) :
  get_designs data = (Sent doc, store) →
  Doc.brandLogo doc = Doc.brandLogo data
  ∧ Doc.sizeIcon doc = Doc.sizeIcon data
  ∧ designs_of doc ≡ₚ designs_of data
  ∧ get_designs doc = (Sent doc, doc).
Proof.
  unfold get_designs, designs_of.
  destruct (Doc.designs data) as [ds|] eqn:Hds.
  - destruct (sort_designs ds) as [ds'|] eqn:Hsort; [|done].
    intros [= <- _]. simpl.
    split_and!; [done..|by apply sort_designs_perm|].
    by rewrite (sort_designs_fixed _ _ Hsort).
  - intros [= <- _]. by rewrite Hds.
Qed.

Lemma get_designs_again_witness :
  get_designs (catalogue [design "B" (Some 1) None; design "A" (Some 2) None])
  = (Sent (catalogue [design "B" (Some 1) None; design "A" (Some 2) None]),
     catalogue [design "B" (Some 1) None; design "A" (Some 2) None]).
Proof.
  apply (get_designs_again
           (catalogue [design "A" (Some 2) None; design "B" (Some 1) None])
           (catalogue [design "B" (Some 1) None; design "A" (Some 2) None])
           (catalogue [design "A" (Some 2) None; design "B" (Some 1) None])).
  vm_compute. reflexivity.
Defined.

(** ** The keys of the files of a flexible theme *)

(** X13. The key under which the files of a field are stored is what the field
    name wraps: [files[k]] and [files[k][]] both give [k], and so does [k]
    itself when it has no such wrapping.  So the fields of one request
    that are spelt in these ways share one key of [themeData]. *)
Theorem cleanFieldName_unwraps (k : string) :
  ((∀ r, k ≠ r +:+ "][") → cleanFieldName ("files[" +:+ k +:+ "]") = k)
  ∧ ((∀ r, k ≠ r +:+ "]") → cleanFieldName ("files[" +:+ k +:+ "][]") = k)
  ∧ ((∀ r, k ≠ "files[" +:+ r) → (∀ r, k ≠ r +:+ "]") →
     cleanFieldName k = k).
Proof.
  unfold cleanFieldName. split_and!.
  - intros Hk. unfold remove_prefix. rewrite strip_prefix_app. simpl.
    rewrite (remove_suffix_none "][]"); [apply remove_suffix_app|].
    intros r Hr. apply (Hk r), (app_inj_r _ _ "]").
    by rewrite Hr, app_assoc_string.
  - intros Hk. unfold remove_prefix. rewrite strip_prefix_app. simpl.
    rewrite remove_suffix_app. by apply remove_suffix_none.
  - intros Hpre Hsuf. rewrite remove_prefix_none by done.
    rewrite (remove_suffix_none "][]"); [by apply remove_suffix_none|].
    intros r Hr. apply (Hsuf (r +:+ "][")). by rewrite Hr, app_assoc_string.
Qed.

Lemma cleanFieldName_unwraps_witness :
  cleanFieldName "files[swatch]" = "swatch"
  ∧ cleanFieldName "files[swatch][]" = "swatch"
  ∧ cleanFieldName "swatch" = "swatch".
Proof.
  destruct (cleanFieldName_unwraps "swatch") as (Hone & Hmany & Hbare).
  assert (∀ r, "swatch" ≠ r +:+ "]") as Hsuf.
  { intros r Hr. apply (f_equal String.rev) in Hr.
    rewrite rev_app_string in Hr. discriminate Hr. }
  split_and!.
  - apply Hone. intros r Hr. apply (f_equal String.rev) in Hr.
    rewrite rev_app_string in Hr. discriminate Hr.
  - apply Hmany, Hsuf.
  - apply Hbare; [discriminate|apply Hsuf].
Defined.

(** ** The id that multer derives from the first file *)

Section Multer.
Context `{JsString} `{JsRegExp}.

Lemma slug_chars s : string_forall slug_char (slug s) = true.
Proof. apply drop_while_end_forall, drop_while_forall, replace_runs_chars. Qed.

Lemma slug_slug s : slug (slug s) = slug s.
Proof.
  unfold slug at 1.
  rewrite trim_slug_chars, toUpperCase_slug_chars by apply slug_chars.
  rewrite replace_runs_fixed by apply slug_chars.
  apply strip_underscores_fixed.
  - intros r. apply strip_underscores_head.
  - intros r. apply strip_underscores_last.
Qed.



Lemma ensureIdAndLabel_done req f : ensureIdAndLabel (req, true) f = (req, true).
Proof. done. Qed.

Lemma ensureIdAndLabel_flag st f : (ensureIdAndLabel st f).2 = true.
Proof.
  unfold ensureIdAndLabel. destruct st as [req [|]]; simpl; [done|].
  by repeat case_bool_decide.
Qed.

Lemma multer_done req fs :
  multer (req, true) fs
  = ((req, true),
     (λ g, (destination (or_else (body_theme req) "default")
              (slug (or_else (body_id req) "")) g,
            filename (or_else (body_theme req) "default")
              (slug (or_else (body_id req) "")) g)) <$> fs).
Proof.
  induction fs as [|f fs IH]; [done|].
  cbn [multer]. unfold store. rewrite !ensureIdAndLabel_done.
  cbn [fst snd]. by rewrite IH.
Qed.

Lemma multer_first_file raw f fs :
  multer (raw, false) (f :: fs)
  = multer ((ensureIdAndLabel (raw, false) f).1, true) (f :: fs).
Proof.
  cbn [multer]. unfold store.
  pose proof (ensureIdAndLabel_flag (raw, false) f) as Hflag.
  destruct (ensureIdAndLabel (raw, false) f) as [req flag] eqn:Hreq.
  simpl in Hflag. subst flag. cbn [fst].
  by rewrite !ensureIdAndLabel_done.
Qed.

(** X14. The id and the label are derived once in a request, at its first file:
    the body that the handler reads is the body as the first file leaves
    it (the body as it was sent, when there is no file), and every file of
    the request, the first one too, is stored in the directory and under
    the name that the theme and the id of that body give. *)
Theorem multer_derives_once (raw : Request) (fs : list File) :
  let req :=
    match fs with
    | [] => raw
    | f :: _ => (ensureIdAndLabel (raw, false) f).1
    end in
  (multer (raw, false) fs).1.1 = req
  ∧ (multer (raw, false) fs).2
    = (λ g, (destination (or_else (body_theme req) "default")
               (slug (or_else (body_id req) "")) g,
             filename (or_else (body_theme req) "default")
               (slug (or_else (body_id req) "")) g)) <$> fs.
Proof.
  destruct fs as [|f fs]; [done|].
  by rewrite multer_first_file, multer_done.
Qed.


End Multer.


Example multer_example :
  (multer (unnamed_upload, false) (files unnamed_upload)).2
  = [("TILES/BLUE_MARBLE_01", "BLUE_MARBLE_01_R1.png");
     ("VIDEO", "BLUE_MARBLE_01.mp4")].
Proof. vm_compute. reflexivity. Qed.

(** ** The files that a delete removes *)

Lemma slug_char_ascii c : slug_char c = true → is_ascii c = true.
Proof.
  unfold slug_char, in_range, is_ascii.
  destruct (bool_decide _) eqn:Hu.
  - apply bool_decide_eq_true_1 in Hu as ->. done.
  - rewrite orb_false_r. intros H. apply N.ltb_lt.
    repeat (apply orb_prop in H as [H|H]);
      apply andb_prop in H as [_ H%N.leb_le]; lia.
Qed.

Lemma slug_char_not_dot c : slug_char c = true → c ≠ "."%char.
Proof. by intros Hc ->. Qed.

Lemma is_prefix_dot id id' rest :
  string_forall slug_char id = true →
  string_forall slug_char id' = true →
  is_prefix (id +:+ ".") (id' +:+ "." +:+ rest) = bool_decide (id' = id).
Proof.
  revert id'. induction id as [|c id IH]; intros [|a id']; simpl.
  - done.
  - intros _ [Ha%slug_char_not_dot _]%andb_prop.
    by rewrite bool_decide_eq_false_2 by congruence.
  - intros [Hc%slug_char_not_dot _]%andb_prop _.
    by rewrite bool_decide_eq_false_2.
  - intros [_ Hid]%andb_prop [_ Hid']%andb_prop.
    rewrite (IH id') by done.
    destruct (decide (c = a)) as [->|Hca].
    + rewrite bool_decide_eq_true_2 by done. simpl.
      apply bool_decide_ext. split; [by intros ->|by intros [= ->]].
    + rewrite bool_decide_eq_false_2 by done. simpl. symmetry.
      apply bool_decide_eq_false_2. by intros [= -> _].
Qed.

Lemma string_map_app f s1 s2 :
  string_map f (s1 +:+ s2) = string_map f s1 +:+ string_map f s2.
Proof. induction s1 as [|a s1 IH]; [done|]. rewrite !app_cons. simpl. by rewrite IH. Qed.

Global Instance ascii_upper_case : JsUpperCase := {|
  toUpperCase_ascii s _ := eq_refl;
  toUpperCase_app a b _ := string_map_app ascii_upper a b
|}.

Section RemovalProperties.
Context `{JsString} `{!JsUpperCase}.

Lemma toUpperCase_id_dot id e :
  string_forall slug_char id = true →
  toUpperCase (id +:+ "." +:+ e) = id +:+ "." +:+ toUpperCase e.
Proof.
  intros Hid. rewrite toUpperCase_app.
  2:{ eapply string_forall_impl; [|done]. apply slug_char_ascii. }
  rewrite toUpperCase_slug_chars by done. f_equal.
  rewrite (toUpperCase_app "." e) by done.
  by rewrite (toUpperCase_ascii ".").
Qed.

Lemma safeStarts_own id id' e :
  string_forall slug_char id = true →
  string_forall slug_char id' = true →
  safeStarts (toUpperCase id) (id' +:+ "." +:+ e) = bool_decide (id' = id).
Proof.
  intros Hid Hid'. unfold safeStarts.
  rewrite toUpperCase_id_dot, toUpperCase_slug_chars by done.
  by apply is_prefix_dot.
Qed.

(** X16. A delete that is sent removes the two directories of the id and, of
    the files of the shared preview and video directories that are named
    by an id, a dot and an extension, those of the id that is deleted and
    no file of another id: deleting TILE1 leaves TILE10.png and
    TILE1_B.png.  A delete that is refused removes no file. *)
Theorem delete_files_own (data : Doc.t) (raw : string)
    (prev vid : list string) :
  match delete_files data raw (Some prev) (Some vid) with
  | None => ∃ status error, (delete_design data raw).1 = Failed status error
  | Some c =>
      (∃ designs, (delete_design data raw).1 = Sent designs)
      ∧ removed_dirs c = ["TILES/" +:+ slug raw; "ASSETS/" +:+ slug raw]
      ∧ ∀ id e, string_forall slug_char id = true →
          (id +:+ "." +:+ e ∈ removed_previews c
           ↔ id = slug raw ∧ id +:+ "." +:+ e ∈ prev)
          ∧ (id +:+ "." +:+ e ∈ removed_videos c
             ↔ id = slug raw ∧ id +:+ "." +:+ e ∈ vid)
  end.
Proof.
  unfold delete_files.
  destruct (delete_design data raw).1 as [designs|status error] eqn:Hdel;
    [|by eauto].
  split; [by eauto|]. split.
  { unfold cleanup, join. cbn [removed_dirs].
    rewrite bool_decide_eq_false_2; [done|].
    intros Hid. unfold delete_design in Hdel.
    by rewrite bool_decide_eq_true_2 in Hdel. }
  intros id e Hid. unfold cleanup. cbn [removed_previews removed_videos default].
  rewrite !list_elem_of_filter, safeStarts_own by (done || apply slug_chars).
  rewrite bool_decide_eq_true. done.
Qed.

End RemovalProperties.

Lemma delete_files_own_witness :
  delete_files (catalogue tiles) "tile 1"
    (Some ["TILE_1.png"; "TILE_10.png"; "TILE_1_B.png"; "TILE_2.png"])
    (Some ["TILE_1.mp4"; "TILE_2.mp4"])
  = Some {| removed_dirs := ["TILES/TILE_1"; "ASSETS/TILE_1"];
            removed_previews := ["TILE_1.png"];
            removed_videos := ["TILE_1.mp4"] |}
  ∧ ("TILE_10" +:+ "." +:+ "png"
     ∈ removed_previews
         (cleanup (slug "tile 1")
            (Some ["TILE_1.png"; "TILE_10.png"; "TILE_1_B.png"; "TILE_2.png"])
            (Some ["TILE_1.mp4"; "TILE_2.mp4"]))
     ↔ "TILE_10" = slug "tile 1"
       ∧ "TILE_10" +:+ "." +:+ "png"
         ∈ ["TILE_1.png"; "TILE_10.png"; "TILE_1_B.png"; "TILE_2.png"]).
Proof.
  split; [vm_compute; reflexivity|].
  pose proof (delete_files_own (catalogue tiles) "tile 1"
                ["TILE_1.png"; "TILE_10.png"; "TILE_1_B.png"; "TILE_2.png"]
                ["TILE_1.mp4"; "TILE_2.mp4"]) as Hown.
  unfold delete_files in Hown.
  destruct (delete_design (catalogue tiles) "tile 1").1 eqn:Hdel;
    [|vm_compute in Hdel; discriminate Hdel].
  destruct Hown as (_ & _ & Hown).
  apply (Hown "TILE_10" "png"). reflexivity.
Defined.

(** ** The catalogues that the server can reach *)

Lemma elem_of_list_insert_inv {A} (l : list A) i x y :
  x ∈ <[i:=y]> l → x = y ∨ x ∈ l.
Proof.
  revert i. induction l as [|a l IH]; intros [|i]; simpl;
    try by intros ?%elem_of_nil.
  - intros [->|?]%elem_of_cons; [by left|]. right. by right.
  - intros [->|Hx]%elem_of_cons; [right; left|].
    destruct (IH _ Hx) as [?|?]; [by left|]. right. by right.
Qed.

Lemma or_else_nonempty s d : d ≠ "" → or_else s d ≠ "".
Proof. intros Hd. destruct s as [s|]; simpl; [|done]. by case_bool_decide. Qed.

Lemma assign_positions_Forall (P : Design.t → Prop) i newIds
    (byId : gmap string Design.t) :
  (∀ d p, P d → 1 ≤ p → P (set_position d p)) →
  map_Forall (λ _, P) byId →
  map_Forall (λ _, P) (assign_positions i newIds byId).
Proof.
  intros Hset. revert i byId.
  induction newIds as [|[id|] newIds IH]; intros i byId Hall; simpl;
    [done| |by apply IH].
  apply IH. destruct (byId !! id) as [d|] eqn:Hd; [|done].
  apply map_Forall_insert_2; [|done]. apply Hset; [by eapply Hall|lia].
Qed.

Section Reachable.
Context `{JsString}.

Lemma sound_record_set_position d p :
  sound_record d → 1 ≤ p → sound_record (set_position d p).
Proof.
  intros (Hslug & Hid & Htheme & Hlabel & Hcreated & Hpos) Hp.
  split_and!; try done. simpl. by intros ? [= <-].
Qed.

Lemma sound_upsert_spec id req now c old :
  id ≠ "" → slug id = id →
  carried id req now = Sent c →
  (∀ o, old = Some o → sound_record o) →
  sound_record (upsert_spec old c).
Proof.
  intros Hid Hslug Hc Hold.
  destruct (carried_plain _ _ _ _ Hc)
    as (Hcid & Hth & Hla & _ & _ & _ & Hcr).
  destruct old as [o|]; simpl.
  - destruct (Hold o eq_refl) as (_ & _ & _ & _ & Hcreated & Hpos).
    split_and!; simpl; rewrite ?Hcid, ?Hth, ?Hla; try done;
      by apply or_else_nonempty.
  - split_and!; rewrite ?Hcid, ?Hth, ?Hla, ?Hcr; try done;
      try by apply or_else_nonempty.
    unfold carried, payload in Hc. case_bool_decide.
    + destruct (checked _ "main" _ _); [|done].
      destruct (rename_variants _ _ _ _); [|done].
      destruct (checked _ "video" _ _); [|done].
      destruct (checked _ "preview" _ _); [|done].
      simpl in Hc. by injection Hc as <-.
    + simpl in Hc. by injection Hc as <-.
Qed.

Lemma step_sound data data' : sound data → step data data' → sound data'.
Proof.
  intros Hsound Hstep.
  pose proof Hsound as (Hlogo & Hicon & Hdesigns & Hrecords).
  destruct Hstep as [|req now|theme order|raw].
  - unfold get_designs. destruct (Doc.designs data) as [ds|]; [|done].
    by destruct (sort_designs ds).
  - unfold post_upload.
    destruct (upload data req now) as [doc|] eqn:Hup; [|done]. simpl.
    destruct (upload_record _ _ _ _ Hup) as (c & Hc & Hr).
    apply upload_Sent in Hup as (Hid & p & Hp & Hup). simpl in *.
    destruct (payload_spec _ _ _ _ Hp) as [Hc' Hspec].
    rewrite Hc' in Hc. injection Hc as <-.
    set (id := slug (or_else (body_id req) "")) in *.
    assert (∀ old, (∀ o, old = Some o → sound_record o) →
              sound_record (upsert_spec old (p None))) as Hnew.
    { intros old Hold. eapply (sound_upsert_spec id); [done| |done..].
      apply slug_slug. }
    unfold upsert in Hup.
    change (designs_of (seeded data)) with (designs_of data) in Hup.
    destruct (findIndex id (designs_of data)) as [[i|]|] eqn:Hi; [| |done].
    + destruct (findIndex_Some _ _ _ Hi) as (old & Hold & Hidold).
      rewrite Hold in Hup. injection Hup as <-.
      split_and!; simpl; [by rewrite Hlogo|by rewrite Hicon|done|].
      intros d [[= ->]|Hd]%elem_of_list_insert_inv; [|by apply Hrecords].
      destruct (Hspec (Some old)) as [_ <-]. apply Hnew.
      intros o [= <-]. apply Hrecords. by eapply list_elem_of_lookup_2.
    + injection Hup as <-.
      split_and!; simpl; [by rewrite Hlogo|by rewrite Hicon|done|].
      intros d [Hd|[= ->]%list_elem_of_singleton]%elem_of_app;
        [by apply Hrecords|].
      by apply (Hnew None).
  - unfold put_order. destruct order as [[|o order]|]; [done| |done].
    destruct (records (designs_of data)) as [designs|] eqn:Hrecs; [|done].
    destruct (new_ids theme (o :: order) _) as [newIds|]; [|done]. simpl.
    split_and!; [done..|].
    rewrite designs_of_set. unfold collect.
    intros d ([id|] & Hd & Hid)%list_elem_of_fmap; [|done].
    simpl in Hd. symmetry in Hd.
    eapply (assign_positions_Forall sound_record); [| |exact Hd].
    + apply sound_record_set_position.
    + intros id' d' [Hd' _]%byId_of_elem. apply Hrecords.
      apply records_inv in Hrecs. rewrite Hrecs.
      by apply list_elem_of_fmap_2.
  - unfold delete_design. case_bool_decide; [done|].
    destruct (records (designs_of data)) as [designs|] eqn:Hrecs; [|done].
    simpl. split_and!; [done..|]. rewrite designs_of_set.
    intros d (d' & [= <-] & [_ Hd]%list_elem_of_filter)%list_elem_of_fmap.
    apply Hrecords. apply records_inv in Hrecs. rewrite Hrecs.
    by apply list_elem_of_fmap_2.
Qed.

(** X17. From the catalogue that the server writes at start-up, whatever the
    requests, accepted or refused: the catalogue has the logo and the size
    icon it started with and an array of designs, and every record of it
    has an id that is normalized and not empty, a theme and a label that
    are not empty, a creation time and, when it has a position, one that
    is at least 1. *)
Theorem reachable_sound (data : Doc.t) : reachable data → sound data.
Proof.
  revert data. apply rtc_ind_r.
  - split_and!; [done..|by eexists|]. by intros d ?%elem_of_nil.
  - intros y z _ Hstep IH. by eapply step_sound.
Qed.

End Reachable.

Lemma reachable_sound_witness :
  sound (put_order (post_upload initial blue_main 100).2 None (Some ["TILE1"])).2.
Proof.
  apply reachable_sound.
  eapply rtc_r; [apply rtc_once, (step_upload initial blue_main 100)|].
  apply step_order.
Defined.

(** ** One record per id, kept *)

Section UniqueIds.
Context `{JsString}.

(** X18. A catalogue with one record per id and no [null] entry stays one
    after a read, after an upload, after a delete and after a reorder of
    all the designs whose order has no repeated id, whether the request is
    accepted or refused. *)
Theorem unique_ids_kept (data : Doc.t) :
  unique_ids data →
  unique_ids (get_designs data).2
  ∧ (∀ req now, unique_ids (post_upload data req now).2)
  ∧ (∀ raw, unique_ids (delete_design data raw).2)
  ∧ (∀ theme order,
       theme_scoped theme = false → NoDup order →
       unique_ids (put_order data theme (Some order)).2).
Proof.
  intros Hdata. split_and!.
  - unfold get_designs. destruct (Doc.designs data) as [ds|]; [|done].
    by destruct (sort_designs ds).
  - intros req now.
    by eapply post_upload_unique_ids, surjective_pairing.
  - intros raw.
    by eapply delete_design_unique_ids, surjective_pairing.
  - intros theme order Hscope Hord.
    by eapply put_order_unique_ids, surjective_pairing.
Qed.

End UniqueIds.

Lemma unique_ids_kept_witness :
  unique_ids (post_upload (catalogue ab) blue_main 100).2
  ∧ unique_ids (delete_design (catalogue ab) "a").2.
Proof.
  destruct (unique_ids_kept (catalogue ab)) as (_ & Hup & Hdel & _).
  - exists ab. split; [reflexivity|].
    apply (bool_decide_unpack _). vm_compute. exact I.
  - split; [apply Hup|apply Hdel].
Defined.

(** ** The base name and the extension of a file name *)

Lemma remove_suffix_empty s : remove_suffix "" s = s.
Proof.
  unfold remove_suffix, remove_prefix. simpl.
  destruct (String.rev s) eqn:Hs; simpl; by rewrite <-Hs, rev_rev.
Qed.

(** X19. The base name of a file name without its extension, followed by its
    extension, is its base name: the id that is derived from a file name
    is made from all of its last segment but the extension. *)
Theorem baseNameNoExt_extname (filename : string) :
  baseNameNoExt filename +:+ extname filename = basename filename.
Proof.
  unfold baseNameNoExt, extname.
  set (base := basename filename).
  pose proof (take_drop_while (λ c, negb (is_dot c)) (String.rev base)) as Hsplit.
  destruct (drop_while _ (String.rev base)) as [|c [|c' pre]] eqn:Hdrop.
  - by rewrite remove_suffix_empty, app_empty_r.
  - by rewrite remove_suffix_empty, app_empty_r.
  - case_bool_decide; [by rewrite remove_suffix_empty, app_empty_r|].
    apply drop_while_head in Hdrop as Hc.
    apply negb_false_iff, bool_decide_eq_true_1 in Hc. subst c.
    apply (f_equal String.rev) in Hsplit.
    rewrite rev_rev, rev_app_string, rev_cons, app_assoc_string in Hsplit.
    change (String "." "" +:+ ?s) with (String "." s) in Hsplit.
    set (ext := String "." (String.rev (take_while _ _))) in *.
    clearbody ext. clear Hdrop. clearbody base.
    rewrite <-Hsplit. by rewrite remove_suffix_app.
Qed.

Example baseNameNoExt_example :
  baseNameNoExt "photos/Blue_Marble-01.v2.PNG" = "Blue_Marble-01.v2"
  ∧ baseNameNoExt "photos/.hidden" = ".hidden"
  ∧ baseNameNoExt "a.png/" = "a".
Proof. repeat split; vm_compute; reflexivity. Qed.

(** ** The variant files that count *)

Lemma field_filter k fs :
  default [] (field k (filesByField fs)) = filter (λ f, fieldname f = k) fs
  ∧ (field k (filesByField fs) = None
     ↔ filter (λ f, fieldname f = k) fs = []).
Proof.
  destruct (filesByField_groups fs) as [_ Hgroups].
  destruct (field k (filesByField fs)) as [arr|] eqn:Hfield; simpl.
  - apply field_Some, Hgroups in Hfield as [Hne ->]. by split.
  - destruct (filter _ fs) as [|f l] eqn:Hl; [done|].
    apply (field_None _ _ (f :: l)) in Hfield. destruct Hfield.
    apply Hgroups. by rewrite Hl.
Qed.

(** X20. The variant files of a request are the files sent as [variants[]];
    those sent as [variants] are its variant files only when no file is
    sent as [variants[]]. *)
Theorem variant_files_precedence (fs : list File) :
  variant_files (filesByField fs)
  = match filter (λ f, fieldname f = "variants[]") fs with
    | [] => filter (λ f, fieldname f = "variants") fs
    | brackets => brackets
    end.
Proof.
  unfold variant_files.
  destruct (field_filter "variants[]" fs) as [Hb Hnone].
  destruct (field_filter "variants" fs) as [Hv _].
  destruct (field "variants[]" (filesByField fs)) as [arr|] eqn:Hfield.
  - simpl in Hb. rewrite <-Hb. destruct arr; [|done].
    symmetry in Hb. by apply Hnone in Hb.
  - by rewrite (proj1 Hnone eq_refl).
Qed.

(** ** Where the files of a design are stored *)

Section Directories.
Context `{JsString}.

(** X21. The directory that the [destination] callback returns tells the
    id, outside the shared video and preview directories: when it returns
    one directory for a file of the id [id] and for a file of the id
    [id'], both ids not empty, then the ids are the same, or the directory
    is VIDEO or PREVIEW.  (Where multer writes the file is the join of
    that directory and of the name of the [filename] callback, which a
    field name with a slash takes elsewhere.) *)
Theorem destination_of_one_id (theme theme' id id' : string) (f g : File) :
  id ≠ "" → id' ≠ "" →
  destination theme id f = destination theme' id' g →
  id = id' ∨ destination theme id f ∈ ["VIDEO"; "PREVIEW"].
Proof.
  intros Hid Hid'. unfold destination, join.
  repeat case_bool_decide; repeat destruct (is_prefix _ _);
    intros Heq; try discriminate Heq;
    try (left; by simplify_eq).
  - right. left.
  - right. right. left.
Qed.

End Directories.

Lemma destination_of_one_id_witness :
  "TILE1" = "TILE2"
  ∨ destination "default" "TILE1" (file "video" "a.mp4" 1)
    ∈ ["VIDEO"; "PREVIEW"].
Proof.
  apply (destination_of_one_id "default" "default" "TILE1" "TILE2"
           (file "video" "a.mp4" 1) (file "video" "b.mp4" 2)).
  - discriminate.
  - discriminate.
  - reflexivity.
Defined.

(** ** A new design in the display order *)

Lemma insert_sorted_last {A} (cmp : A → A → Z) x l r :
  cmp x r ≤ 0 → insert_sorted cmp x (l ++ [r]) = insert_sorted cmp x l ++ [r].
Proof.
  intros Hx. induction l as [|y l IH]; simpl.
  - by rewrite bool_decide_eq_true_2.
  - case_bool_decide; [done|]. by rewrite IH.
Qed.

Lemma sort_last {A} (cmp : A → A → Z) l r :
  (∀ x, x ∈ l → cmp x r ≤ 0) → sort cmp (l ++ [r]) = sort cmp l ++ [r].
Proof.
  intros Hl. induction l as [|x l IH]; [done|]. unfold sort in *. simpl.
  rewrite IH by (intros y Hy; apply Hl; by right).
  apply insert_sorted_last, Hl. left.
Qed.

Section ShownLast.
Context `{JsString}.

(** X22. A design that is uploaded under an id that is not stored, into a
    catalogue of records that have positions (under 10^12), is shown
    last: a read that follows sends the designs that were stored, in their
    display order, and then the new one. *)
Theorem new_design_shown_last (data : Doc.t) (ds : list Design.t)
    (req : Request) (now : Z) (doc store : Doc.t) :
  designs_of data = Some <$> ds →
  (∀ d, d ∈ ds → ∃ p, Design.position d = Some p ∧ p < sentinel) →
  slug (or_else (body_id req) "") ∉ Design.id <$> ds →
  post_upload data req now = (Sent doc, store) →
  ∃ r, Design.id r = slug (or_else (body_id req) "")
       ∧ get_designs store
         = (Sent (set_designs store
                    (Some <$> sort compare_designs ds ++ [r])), store).
Proof.
  intros Hds Hpos Habsent [Hup ->]%post_upload_Sent.
  apply upload_Sent in Hup as (Hid & p & Hp & Hup). simpl in *.
  assert (Design.position (p None) = None) as Hnone.
  { unfold payload in Hp. case_bool_decide.
    - destruct (checked _ "main" _ _); [|done].
      destruct (rename_variants _ _ _ _); [|done].
      destruct (checked _ "video" _ _); [|done].
      destruct (checked _ "preview" _ _); [|done].
      simpl in Hp. by injection Hp as <-.
    - by injection Hp as <-. }
  apply payload_spec in Hp as [_ Hp].
  unfold upsert in Hup.
  change (designs_of (seeded data)) with (designs_of data) in Hup.
  rewrite Hds, findIndex_absent in Hup by done. injection Hup as <-.
  exists (p None). split; [apply Hp|].
  unfold get_designs. cbn [set_designs Doc.designs].
  change [Some (p None)] with (Some <$> [p None]).
  rewrite <-fmap_app, sort_designs_Some, sort_last; [done|].
  intros d (pd & Hpd & Hlt)%Hpos. unfold compare_designs.
  rewrite Hpd, Hnone. simpl. rewrite bool_decide_eq_true_2 by lia. lia.
Qed.

End ShownLast.

Lemma new_design_shown_last_witness :
  ∃ r, Design.id r = "TILE1"
       ∧ (get_designs (post_upload (catalogue abcd) blue_main 100).2).1
         = Sent (set_designs (post_upload (catalogue abcd) blue_main 100).2
                   ((Some <$> abcd) ++ [Some r])).
Proof.
  destruct (new_design_shown_last (catalogue abcd) abcd blue_main 100
              (post_upload (catalogue abcd) blue_main 100).2
              (post_upload (catalogue abcd) blue_main 100).2)
    as (r & Hid & Hget).
  - reflexivity.
  - intros d Hd.
    repeat (apply elem_of_cons in Hd as [->|Hd]; [eexists; split; [reflexivity|reflexivity]|]).
    by apply elem_of_nil in Hd.
  - vm_compute. intros Hin. by repeat apply elem_of_cons in Hin as [?|Hin];
      try apply elem_of_nil in Hin.
  - vm_compute. reflexivity.
  - exists r. split; [exact Hid|]. rewrite Hget. reflexivity.
Defined.
